(** * holegame: the hole subsystem, its world loop and its frame driver

    A shallow embedding of [src/objects/Hole.ts], [src/World.ts] and
    [src/Game.ts], with the parts of three.js and cannon-es they call.

    Numbers.  A JavaScript [number] is modelled as a real number: rounding,
    infinities and NaN are outside the model.  Decimal literals are the
    corresponding fractions ([1.5] is [3/2], [0.1] is [1/10]).

    Objects.  three.js objects and cannon-es bodies are mutable heap objects
    held by reference.  An object is named by its numeric [id] (both
    libraries number their objects from a counter), and the fields the
    program reads or writes live in a heap indexed by that id.

    Exceptions.  The program throws nothing of its own; a method that can
    hit a [TypeError] returns an [option], with [None] for the exception.

    Environment.  What [Math.random()] and [performance.now()] return and
    what [physicsWorld.step] computes are inputs of the model. *)

From Stdlib Require Import Reals Lra ZArith.
From stdpp Require Import base decidable option list functions gmap strings.

(** ** Vectors *)

(** [THREE.Vector3] and [CANNON.Vec3]: three coordinates. *)
Module Vector3.
Local Open Scope R_scope.

Record t : Type := mk { x : R; y : R; z : R }.

Definition zero : t := mk 0 0 0.

(** [length()] *)
Definition length (v : t) : R := sqrt (x v * x v + y v * y v + z v * z v).

Definition set_y (v : t) (y' : R) : t := mk (x v) y' (z v).
End Vector3.

(** [THREE.Vector2], with the methods [Hole.handleInput] calls. *)
Module Vector2.
Local Open Scope R_scope.

Record t : Type := mk { x : R; y : R }.

Definition zero : t := mk 0 0.

(** [length() { return Math.sqrt(this.x * this.x + this.y * this.y) }] *)
Definition length (v : t) : R := sqrt (x v * x v + y v * y v).

(** [multiplyScalar(s)] *)
Definition multiplyScalar (v : t) (s : R) : t := mk (x v * s) (y v * s).

(** [divideScalar(s) { return this.multiplyScalar(1 / s) }] *)
Definition divideScalar (v : t) (s : R) : t := multiplyScalar v (1 / s).

(** [normalize() { return this.divideScalar(this.length() || 1) }] *)
Definition normalize (v : t) : t :=
  divideScalar v (if Req_dec_T (length v) 0 then 1 else length v).

(** [negate()] *)
Definition negate (v : t) : t := mk (- x v) (- y v).

(** [addScaledVector(w, s)] *)
Definition addScaledVector (v w : t) (s : R) : t :=
  mk (x v + x w * s) (y v + y w * s).

(** [setLength(l) { return this.normalize().multiplyScalar(l) }] *)
Definition setLength (v : t) (l : R) : t := multiplyScalar (normalize v) l.
End Vector2.

(** [indexOf] followed by [splice(idx, 1)]: the first occurrence of [i] is
    taken out, and an array without [i] is left as it is. *)
Fixpoint splice_out (i : nat) (l : list nat) : list nat :=
  match l with
  | [] => []
  | j :: l' => if decide (i = j) then l' else j :: splice_out i l'
  end.

(** ** three.js: the scene graph *)
Module THREE.
Local Open Scope R_scope.

Inductive Geometry : Type :=
| NoGeometry
| PlaneGeometry (width height : R)
| CircleGeometry (radius : R) (segments : nat)
| CylinderGeometry (radiusTop radiusBottom height : R) (radialSegments : nat)
| OtherGeometry.

(** The fields of an [Object3D] (a [Mesh], a [Group], a light) the program
    uses.  A fresh object is at the origin with [renderOrder = 0]. *)
Record Object3D : Type := mkObject3D {
  position : Vector3.t;
  renderOrder : Z;
  geometry : Geometry
}.

Definition fresh (g : Geometry) : Object3D := mkObject3D Vector3.zero 0%Z g.

(** A [Scene] with the objects created so far.  [children] is
    [scene.children]; [objects] is the heap of [Object3D]s, and
    [object3DId] the counter the next object takes its id from. *)
Record Scene : Type := mkScene {
  children : list nat;
  objects : nat -> Object3D;
  object3DId : nat
}.

Definition empty : Scene := mkScene [] (fun _ => fresh NoGeometry) 0.

(** [new THREE.Mesh(geometry, material)], [new THREE.Group()], ... *)
Definition create (g : Geometry) (sc : Scene) : nat * Scene :=
  let id := object3DId sc in
  (id, mkScene (children sc) (<[id := fresh g]> (objects sc)) (S id)).

Definition set_position (o : nat) (p : Vector3.t) (sc : Scene) : Scene :=
  let ob := objects sc o in
  mkScene (children sc)
          (<[o := mkObject3D p (renderOrder ob) (geometry ob)]> (objects sc))
          (object3DId sc).

Definition set_renderOrder (o : nat) (r : Z) (sc : Scene) : Scene :=
  let ob := objects sc o in
  mkScene (children sc)
          (<[o := mkObject3D (position ob) r (geometry ob)]> (objects sc))
          (object3DId sc).

(** [scene.add(o)]: [o] leaves its parent and is pushed on [children]. *)
Definition add (o : nat) (sc : Scene) : Scene :=
  mkScene (splice_out o (children sc) ++ [o]) (objects sc) (object3DId sc).

(** [scene.remove(o)]: [o.parent = null] and [o] is spliced out of
    [children]; nothing happens when [o] is not a child. *)
Definition remove (o : nat) (sc : Scene) : Scene :=
  mkScene (splice_out o (children sc)) (objects sc) (object3DId sc).

(** [o.parent] of an object whose only parent can be the scene: three.js
    keeps [o.parent === scene] exactly while [o] is in [scene.children]
    ([add] sets it, [remove] resets it to [null]).  The result is the
    truth value of [o.parent]. *)
Definition parent (o : nat) (sc : Scene) : bool :=
  bool_decide (o ∈ children sc).
End THREE.

(** ** cannon-es: the physics world *)
Module CANNON.
Local Open Scope R_scope.

(** [bodies] is [world.bodies]; [position] is the heap field
    [body.position] of every body created, in the world or not;
    [idCounter] is [Body.idCounter]. *)
Record World : Type := mkWorld {
  bodies : list nat;
  position : nat -> Vector3.t;
  idCounter : nat
}.

Definition empty : World := mkWorld [] (fun _ => Vector3.zero) 0.

(** [new CANNON.Body({ position })]; the default position is the origin. *)
Definition create (p : Vector3.t) (w : World) : nat * World :=
  let id := idCounter w in
  (id, mkWorld (bodies w) (<[id := p]> (position w)) (S id)).

(** [world.addBody(b)]: a body already in the world is not added twice. *)
Definition addBody (b : nat) (w : World) : World :=
  if decide (b ∈ bodies w) then w
  else mkWorld (bodies w ++ [b]) (position w) (idCounter w).

(** [world.removeBody(b)]: [b] is spliced out of [bodies] when
    [bodies.indexOf(b) !== -1], and nothing happens otherwise. *)
Definition removeBody (b : nat) (w : World) : World :=
  mkWorld (splice_out b (bodies w)) (position w) (idCounter w).

(** [b.position.set(x, y, z)] *)
Definition set_position (b : nat) (p : Vector3.t) (w : World) : World :=
  mkWorld (bodies w) (<[b := p]> (position w)) (idCounter w).
End CANNON.

(** ** [src/objects/Hole.ts] *)
Module Hole.
Local Open Scope R_scope.
Local Open Scope string_scope.

(** The [Hole] object.  [scene] and [physicsWorld] are the objects the
    constructor receives; [World] keeps references to the same two objects,
    so the model stores them once, here.  [ground] is the ground mesh, a
    local constant of [setupVisuals] that only the scene retains; it is
    recorded so that statements can name it.  The fields [maxSpeed],
    [acceleration] and [friction] are initialised once and never assigned:
    they are the constants below. *)
Record t : Type := mk {
  scene : THREE.Scene;
  physicsWorld : CANNON.World;
  mesh : nat;
  holeMask : nat;
  holeInterior : nat;
  ground : nat;
  groundBodies : list nat;
  radius : R;
  currentSpeed : Vector2.t;
  keys : gmap string bool
}.

Definition maxSpeed : R := 8.
Definition acceleration : R := 40.
Definition friction : R := 20.

Definition with_scene (sc : THREE.Scene) (h : t) : t :=
  mk sc (physicsWorld h) (mesh h) (holeMask h) (holeInterior h) (ground h)
     (groundBodies h) (radius h) (currentSpeed h) (keys h).

Definition with_physicsWorld (pw : CANNON.World) (h : t) : t :=
  mk (scene h) pw (mesh h) (holeMask h) (holeInterior h) (ground h)
     (groundBodies h) (radius h) (currentSpeed h) (keys h).

Definition with_groundBodies (bs : list nat) (h : t) : t :=
  mk (scene h) (physicsWorld h) (mesh h) (holeMask h) (holeInterior h)
     (ground h) bs (radius h) (currentSpeed h) (keys h).

Definition with_currentSpeed (v : Vector2.t) (h : t) : t :=
  mk (scene h) (physicsWorld h) (mesh h) (holeMask h) (holeInterior h)
     (ground h) (groundBodies h) (radius h) v (keys h).

Definition with_keys (ks : gmap string bool) (h : t) : t :=
  mk (scene h) (physicsWorld h) (mesh h) (holeMask h) (holeInterior h)
     (ground h) (groundBodies h) (radius h) (currentSpeed h) ks.

(** [this.mesh.position] *)
Definition position (h : t) : Vector3.t :=
  THREE.position (THREE.objects (scene h) (mesh h)).

(** The truth value of [this.keys[code]]; a code never seen is
    [undefined]. *)
Definition key (h : t) (code : string) : bool :=
  default false (keys h !! code).

(** [setupVisuals]: the ground plane goes to the scene, the mask disk and
    the interior cylinder to the hole's group.  Materials, the canvas
    texture and rotations have no part in what follows. *)
Definition setupVisuals (h : t) : t :=
  let sc := scene h in
  let '(ground, sc) := THREE.create (THREE.PlaneGeometry 100 100) sc in
  let sc := THREE.add ground sc in
  let '(holeMask, sc) :=
    THREE.create (THREE.CircleGeometry (radius h) 32) sc in
  let sc :=
    THREE.set_position holeMask
      (Vector3.set_y (THREE.position (THREE.objects sc holeMask)) (5 / 100))
      sc in
  let sc := THREE.set_renderOrder holeMask (-1)%Z sc in
  let '(holeInterior, sc) :=
    THREE.create (THREE.CylinderGeometry (radius h) (radius h) 5 32) sc in
  let sc :=
    THREE.set_position holeInterior
      (Vector3.set_y (THREE.position (THREE.objects sc holeInterior))
                     (- (25 / 10)))
      sc in
  let sc := THREE.set_renderOrder holeInterior 1%Z sc in
  mk sc (physicsWorld h) (mesh h) holeMask holeInterior ground
     (groundBodies h) (radius h) (currentSpeed h) (keys h).

(** Half of [groundSize = 100]: the first and third half extents of the
    box shape given to each ground body in [setupPhysics]. *)
Definition groundSize : R := 100.
Definition halfExtent : R := groundSize / 2.

(** [updatePhysicsHolePos].  [this.groundBodies[i]] of a missing index is
    [undefined], on which [.position] throws: that is [None]. *)
Definition updatePhysicsHolePos (h : t) : option t :=
  let x := Vector3.x (position h) in
  let z := Vector3.z (position h) in
  let r := radius h in
  let huge := 50 in
  let groundThickness := 1 in
  let yStrata := - groundThickness / 2 in
  let pw := physicsWorld h in
  b0 ← groundBodies h !! 0%nat;
  let pw := CANNON.set_position b0 (Vector3.mk (x + r + huge) yStrata z) pw in
  b1 ← groundBodies h !! 1%nat;
  let pw := CANNON.set_position b1 (Vector3.mk (x - r - huge) yStrata z) pw in
  b2 ← groundBodies h !! 2%nat;
  let pw := CANNON.set_position b2 (Vector3.mk x yStrata (z - r - huge)) pw in
  b3 ← groundBodies h !! 3%nat;
  let pw := CANNON.set_position b3 (Vector3.mk x yStrata (z + r + huge)) pw in
  Some (with_physicsWorld pw h).

(** One turn of the loop of [setupPhysics]: a kinematic body with a box
    shape is created, added to the world and pushed on [groundBodies]. *)
Definition addGroundBody (h : t) : t :=
  let '(body, pw) := CANNON.create Vector3.zero (physicsWorld h) in
  let pw := CANNON.addBody body pw in
  with_groundBodies (groundBodies h ++ [body]) (with_physicsWorld pw h).

(** [setupPhysics] *)
Definition setupPhysics (h : t) : option t :=
  updatePhysicsHolePos (Nat.iter 4 addGroundBody h).

(** The listeners [setupInput] registers on the window. *)
Definition keydown (code : string) (h : t) : t :=
  with_keys (<[code := true]> (keys h)) h.

Definition keyup (code : string) (h : t) : t :=
  with_keys (<[code := false]> (keys h)) h.

(** The constructor; the field initialisers run before its body.  The
    fields [setupVisuals] assigns hold a placeholder until then. *)
Definition new (sc : THREE.Scene) (pw : CANNON.World) : option t :=
  let '(mesh, sc) := THREE.create THREE.NoGeometry sc in
  let sc := THREE.add mesh sc in
  let h := mk sc pw mesh 0 0 0 [] (15 / 10) Vector2.zero ∅ in
  setupPhysics (setupVisuals h).

(** The direction read from the keys, before it is normalised. *)
Definition readInput (h : t) : Vector2.t :=
  let input := Vector2.zero in
  let input :=
    if key h "ArrowUp" || key h "KeyW"
    then Vector2.mk (Vector2.x input) (Vector2.y input - 1) else input in
  let input :=
    if key h "ArrowDown" || key h "KeyS"
    then Vector2.mk (Vector2.x input) (Vector2.y input + 1) else input in
  let input :=
    if key h "ArrowLeft" || key h "KeyA"
    then Vector2.mk (Vector2.x input - 1) (Vector2.y input) else input in
  let input :=
    if key h "ArrowRight" || key h "KeyD"
    then Vector2.mk (Vector2.x input + 1) (Vector2.y input) else input in
  input.

(** The velocity [handleInput] leaves in [currentSpeed]: acceleration or
    friction, then the cap. *)
Definition integrate (input v : Vector2.t) (dt : R) : Vector2.t :=
  let input :=
    if Rgt_dec (Vector2.length input) 0 then Vector2.normalize input
    else input in
  let v :=
    if Rgt_dec (Vector2.length input) 0 then
      Vector2.mk (Vector2.x v + Vector2.x input * acceleration * dt)
                 (Vector2.y v + Vector2.y input * acceleration * dt)
    else
      let frictionStep := friction * dt in
      if Rlt_dec (Vector2.length v) frictionStep then Vector2.mk 0 0
      else
        let dir := Vector2.negate (Vector2.normalize v) in
        Vector2.addScaledVector v dir frictionStep in
  if Rgt_dec (Vector2.length v) maxSpeed then Vector2.setLength v maxSpeed
  else v.

(** [handleInput] *)
Definition handleInput (h : t) (dt : R) : t :=
  let v := integrate (readInput h) (currentSpeed h) dt in
  let p := position h in
  let p := Vector3.mk (Vector3.x p + Vector2.x v * dt) (Vector3.y p)
                      (Vector3.z p) in
  let p := Vector3.mk (Vector3.x p) (Vector3.y p)
                      (Vector3.z p + Vector2.y v * dt) in
  with_scene (THREE.set_position (mesh h) p (scene h))
             (with_currentSpeed v h).

(** [update] *)
Definition update (h : t) (dt : R) : option t :=
  updatePhysicsHolePos (handleInput h dt).

(** [checkSwallow] *)
Definition checkSwallow (h : t) (mesh body : nat) : t :=
  let p := THREE.position (THREE.objects (scene h) mesh) in
  let dx := Vector3.x p - Vector3.x (position h) in
  let dz := Vector3.z p - Vector3.z (position h) in
  let dist := sqrt (dx * dx + dz * dz) in
  let objRadius := 5 / 10 in
  if Rlt_dec (dist + objRadius) (radius h) then
    if Rlt_dec (Vector3.y p) (-5) then
      with_scene (THREE.remove mesh (scene h))
                 (with_physicsWorld
                    (CANNON.removeBody body (physicsWorld h)) h)
    else h
  else h.

(** What the rest of the program can do to a hole: its two public methods
    and the two listeners. *)
Inductive Call : Type :=
| Update (dt : R)
| CheckSwallow (mesh body : nat)
| Keydown (code : string)
| Keyup (code : string).

Definition call (h : t) (c : Call) : option t :=
  match c with
  | Update dt => update h dt
  | CheckSwallow mesh body => Some (checkSwallow h mesh body)
  | Keydown code => Some (keydown code h)
  | Keyup code => Some (keyup code h)
  end.

(** A sequence of calls, stopping at the first exception. *)
Fixpoint calls (h : t) (cs : list Call) : option t :=
  match cs with
  | [] => Some h
  | c :: cs => h ← call h c; calls h cs
  end.
End Hole.

(** ** [src/objects/ObjectGenerator.ts] *)
Module ObjectGenerator.
(** [createTree], [createRock], [createFlower] and [createGrass] all end in
    [mesh.position.copy(position)] on the mesh they return.  Child meshes,
    materials and collision shapes have no part in what follows. *)
Definition createMesh (position : Vector3.t) (sc : THREE.Scene)
  : nat * THREE.Scene :=
  let '(mesh, sc) := THREE.create THREE.OtherGeometry sc in
  (mesh, THREE.set_position mesh position sc).
End ObjectGenerator.

(** ** [src/World.ts] *)
Module World.
Local Open Scope R_scope.

(** [objects] pairs the id of a mesh with the id of its body.  The fields
    [scene] and [physicsWorld] of the source are the objects the hole
    holds. *)
Record t : Type := mk {
  hole : Hole.t;
  objects : list (nat * nat)
}.

Definition scene (w : t) : THREE.Scene := Hole.scene (hole w).
Definition physicsWorld (w : t) : CANNON.World := Hole.physicsWorld (hole w).

(** [addPhysicsObject]; the shape, the mass and the random rotation of the
    body are not modelled. *)
Definition addPhysicsObject (mesh : nat) (w : t) : t :=
  let spawnY := 5 in
  let sc := THREE.add mesh (scene w) in
  let p := THREE.position (THREE.objects sc mesh) in
  let '(body, pw) :=
    CANNON.create (Vector3.mk (Vector3.x p) spawnY (Vector3.z p))
                  (physicsWorld w) in
  let pw := CANNON.addBody body pw in
  mk (Hole.with_scene sc (Hole.with_physicsWorld pw (hole w)))
     (objects w ++ [(mesh, body)]).

(** The two numbers one turn of a loop of [addDecorations] draws with
    [Math.random()], and the position it makes of them. *)
Definition spawnPosition (spread : R) (draw : R * R) : Vector3.t :=
  Vector3.mk ((fst draw - 5 / 10) * spread) 0 ((snd draw - 5 / 10) * spread).

(** One loop of [addDecorations]: a turn whose position is closer to the
    origin than [clearance] is skipped ([continue]). *)
Definition decorate (spread clearance : R) (draws : list (R * R)) (w : t)
  : t :=
  fold_left
    (fun w draw =>
       let pos := spawnPosition spread draw in
       if Rlt_dec (Vector3.length pos) clearance then w
       else
         let '(mesh, sc) := ObjectGenerator.createMesh pos (scene w) in
         addPhysicsObject mesh (mk (Hole.with_scene sc (hole w)) (objects w)))
    draws w.

(** What [Math.random()] returns to the four loops of [addDecorations]
    (8 trees, 15 rocks, 20 flowers, 30 tufts of grass in the source; the
    model takes lists of any length). *)
Record Draws : Type := mkDraws {
  trees : list (R * R);
  rocks : list (R * R);
  flowers : list (R * R);
  grass : list (R * R)
}.

(** [addDecorations] *)
Definition addDecorations (d : Draws) (w : t) : t :=
  let w := decorate 15 3 (trees d) w in
  let w := decorate 15 2 (rocks d) w in
  let w := decorate 18 2 (flowers d) w in
  decorate 18 2 (grass d) w.

(** The constructor: a new physics world, two lights in the scene, the
    hole, the decorations. *)
Definition new (sc : THREE.Scene) (d : Draws) : option t :=
  let pw := CANNON.empty in
  let '(ambientLight, sc) := THREE.create THREE.NoGeometry sc in
  let sc := THREE.add ambientLight sc in
  let '(dirLight, sc) := THREE.create THREE.NoGeometry sc in
  let sc := THREE.set_position dirLight (Vector3.mk 10 20 10) sc in
  let sc := THREE.add dirLight sc in
  hole ← Hole.new sc pw;
  Some (addDecorations d (mk hole [])).

(** One turn of the loop over [this.objects] in [update]: the mesh takes
    the position of its body, then the hole checks it.  Orientations are
    not modelled. *)
Definition syncAndCheck (h : Hole.t) (obj : nat * nat) : Hole.t :=
  let '(mesh, body) := obj in
  let sc :=
    THREE.set_position mesh (CANNON.position (Hole.physicsWorld h) body)
                       (Hole.scene h) in
  Hole.checkSwallow (Hole.with_scene sc h) mesh body.

Section Physics.
(** [physicsWorld.step(fixedTimeStep, timeSinceLastCalled, maxSubSteps)]
    of cannon-es: any function of the physics world. *)
Variable step : R -> R -> nat -> CANNON.World -> CANNON.World.

(** The physics world as [step] leaves it in [update]. *)
Definition stepped (w : t) (dt : R) : Hole.t :=
  Hole.with_physicsWorld (step (1 / 60) dt 3 (physicsWorld w)) (hole w).

(** [update] *)
Definition update (w : t) (dt : R) : option t :=
  let h := stepped w dt in
  let h := fold_left syncAndCheck (objects w) h in
  let objects :=
    filter (fun obj => THREE.parent (fst obj) (Hole.scene h)) (objects w) in
  h ← Hole.update h dt;
  Some (mk h objects).
End Physics.
End World.

(** ** [src/Game.ts] *)
Module Game.
Local Open Scope R_scope.

Record t : Type := mk {
  world : World.t;
  lastTime : R
}.

(** The constructor up to [this.lastTime = performance.now()], which
    returns [now].  The renderer and the camera are not modelled; the call
    [this.animate()] that ends the constructor is the first animation
    frame of the session. *)
Definition new (d : World.Draws) (now : R) : option t :=
  w ← World.new THREE.empty d;
  Some (mk w now).

(** The time step [animate] hands to [World.update] when
    [performance.now()] returns [currentTime]. *)
Definition deltaTime (g : t) (currentTime : R) : R :=
  Rmin ((currentTime - lastTime g) / 1000) (1 / 10).

(** What the browser delivers between construction and the end of the
    session: animation frames, with the time [performance.now()] returns
    in each, and key events. *)
Inductive Event : Type :=
| AnimationFrame (currentTime : R)
| KeyDown (code : string)
| KeyUp (code : string).

Section Physics.
Variable step : R -> R -> nat -> CANNON.World -> CANNON.World.

(** [animate]; rendering changes no state. *)
Definition animate (g : t) (currentTime : R) : option t :=
  let deltaTime := deltaTime g currentTime in
  w ← World.update step (world g) deltaTime;
  Some (mk w currentTime).

Definition on_key (f : Hole.t -> Hole.t) (g : t) : t :=
  mk (World.mk (f (World.hole (world g))) (World.objects (world g)))
     (lastTime g).

Definition handle (g : t) (e : Event) : option t :=
  match e with
  | AnimationFrame currentTime => animate g currentTime
  | KeyDown code => Some (on_key (Hole.keydown code) g)
  | KeyUp code => Some (on_key (Hole.keyup code) g)
  end.

(** The session: the events in order, stopping at the first exception. *)
Fixpoint run (g : t) (es : list Event) : option t :=
  match es with
  | [] => Some g
  | e :: es => g ← handle g e; run g es
  end.

End Physics.
End Game.

(** * What the statements speak of *)
Section Notions.
Local Open Scope R_scope.

(** The position of the [i]-th ground body of the hole. *)
Definition segment (h : Hole.t) (i : nat) : option Vector3.t :=
  CANNON.position (Hole.physicsWorld h) <$> (Hole.groundBodies h !! i).

(** The ring as [setupPhysics] builds it: four bodies, all different. *)
Definition ring_built (h : Hole.t) : Prop :=
  length (Hole.groundBodies h) = 4%nat /\ NoDup (Hole.groundBodies h).

(** The four segments sit at centre plus or minus (radius + half extent)
    along their axis: +X, -X, -Z, +Z in the order of [groundBodies]. *)
Definition ring_placed (h : Hole.t) : Prop :=
  let c := Hole.position h in
  let d := Hole.radius h + Hole.halfExtent in
  segment h 0 = Some (Vector3.mk (Vector3.x c + d) (- (1 / 2)) (Vector3.z c))
  /\ segment h 1
     = Some (Vector3.mk (Vector3.x c - d) (- (1 / 2)) (Vector3.z c))
  /\ segment h 2
     = Some (Vector3.mk (Vector3.x c) (- (1 / 2)) (Vector3.z c - d))
  /\ segment h 3
     = Some (Vector3.mk (Vector3.x c) (- (1 / 2)) (Vector3.z c + d)).

(** The inner edges of the four boxes, each [Hole.halfExtent] from the
    centre of its box, bound a square of half-width [half] around the
    hole. *)
Definition ring_opening (h : Hole.t) (half : R) : Prop :=
  let c := Hole.position h in
  exists p0 p1 p2 p3,
    segment h 0 = Some p0 /\ segment h 1 = Some p1
    /\ segment h 2 = Some p2 /\ segment h 3 = Some p3
    /\ Vector3.x p0 - Hole.halfExtent = Vector3.x c + half
    /\ Vector3.x p1 + Hole.halfExtent = Vector3.x c - half
    /\ Vector3.z p2 + Hole.halfExtent = Vector3.z c - half
    /\ Vector3.z p3 - Hole.halfExtent = Vector3.z c + half.

(** [renderOrder] of the three primitives of the stencil composition. *)
Definition maskOrder (h : Hole.t) : Z :=
  THREE.renderOrder (THREE.objects (Hole.scene h) (Hole.holeMask h)).
Definition groundOrder (h : Hole.t) : Z :=
  THREE.renderOrder (THREE.objects (Hole.scene h) (Hole.ground h)).
Definition interiorOrder (h : Hole.t) : Z :=
  THREE.renderOrder (THREE.objects (Hole.scene h) (Hole.holeInterior h)).

Definition maskGeometry (h : Hole.t) : THREE.Geometry :=
  THREE.geometry (THREE.objects (Hole.scene h) (Hole.holeMask h)).
Definition interiorGeometry (h : Hole.t) : THREE.Geometry :=
  THREE.geometry (THREE.objects (Hole.scene h) (Hole.holeInterior h)).

(** None of the eight direction keys is held. *)
Definition no_direction (h : Hole.t) : Prop :=
  Forall (fun code => Hole.key h code = false)
         ["ArrowUp"; "KeyW"; "ArrowDown"; "KeyS";
          "ArrowLeft"; "KeyA"; "ArrowRight"; "KeyD"]%string.

(** What holds of the hole from the end of its constructor on. *)
Record settled (h : Hole.t) : Prop := mkSettled {
  settled_ring : ring_built h;
  settled_radius : Hole.radius h = 15 / 10;
  settled_mask : maskOrder h = (-1)%Z;
  settled_ground : groundOrder h = 0%Z;
  settled_interior : interiorOrder h = 1%Z;
  settled_maskGeometry : maskGeometry h = THREE.CircleGeometry (15 / 10) 32;
  settled_interiorGeometry :
    interiorGeometry h = THREE.CylinderGeometry (15 / 10) (15 / 10) 5 32;
  settled_speed : Vector2.length (Hole.currentSpeed h) <= Hole.maxSpeed
}.

(** Every object the hole names was created before the next one the two
    libraries will create. *)
Record allocated (h : Hole.t) : Prop := mkAllocated {
  allocated_mesh : (Hole.mesh h < THREE.object3DId (Hole.scene h))%nat;
  allocated_mask : (Hole.holeMask h < THREE.object3DId (Hole.scene h))%nat;
  allocated_interior :
    (Hole.holeInterior h < THREE.object3DId (Hole.scene h))%nat;
  allocated_ground : (Hole.ground h < THREE.object3DId (Hole.scene h))%nat;
  allocated_ring :
    Forall (fun b => (b < CANNON.idCounter (Hole.physicsWorld h))%nat)
           (Hole.groundBodies h)
}.

(** The physics world [updatePhysicsHolePos] leaves for a ring of four. *)
Definition placed_world (h : Hole.t) (b0 b1 b2 b3 : nat) : CANNON.World :=
  let x := Vector3.x (Hole.position h) in
  let z := Vector3.z (Hole.position h) in
  let r := Hole.radius h in
  CANNON.set_position b3 (Vector3.mk x (- 1 / 2) (z + r + 50))
    (CANNON.set_position b2 (Vector3.mk x (- 1 / 2) (z - r - 50))
       (CANNON.set_position b1 (Vector3.mk (x - r - 50) (- 1 / 2) z)
          (CANNON.set_position b0 (Vector3.mk (x + r + 50) (- 1 / 2) z)
             (Hole.physicsWorld h)))).

(** What no method of the hole, and no step of the world, changes: the
    objects the hole names, its radius, and the render order and the
    geometry of every object of the scene. *)
Record kept (h h' : Hole.t) : Prop := mkKept {
  kept_mesh : Hole.mesh h' = Hole.mesh h;
  kept_holeMask : Hole.holeMask h' = Hole.holeMask h;
  kept_holeInterior : Hole.holeInterior h' = Hole.holeInterior h;
  kept_ground : Hole.ground h' = Hole.ground h;
  kept_groundBodies : Hole.groundBodies h' = Hole.groundBodies h;
  kept_radius : Hole.radius h' = Hole.radius h;
  kept_renderOrder : forall i,
    THREE.renderOrder (THREE.objects (Hole.scene h') i)
    = THREE.renderOrder (THREE.objects (Hole.scene h) i);
  kept_geometry : forall i,
    THREE.geometry (THREE.objects (Hole.scene h') i)
    = THREE.geometry (THREE.objects (Hole.scene h) i)
}.

(** What creating further objects leaves alone: the objects the hole
    names, with every field of every object created so far. *)
Record extends (h h' : Hole.t) : Prop := mkExtends {
  ext_mesh : Hole.mesh h' = Hole.mesh h;
  ext_holeMask : Hole.holeMask h' = Hole.holeMask h;
  ext_holeInterior : Hole.holeInterior h' = Hole.holeInterior h;
  ext_ground : Hole.ground h' = Hole.ground h;
  ext_groundBodies : Hole.groundBodies h' = Hole.groundBodies h;
  ext_radius : Hole.radius h' = Hole.radius h;
  ext_currentSpeed : Hole.currentSpeed h' = Hole.currentSpeed h;
  ext_objects : forall i,
    (i < THREE.object3DId (Hole.scene h))%nat ->
    THREE.objects (Hole.scene h') i = THREE.objects (Hole.scene h) i;
  ext_positions : forall b,
    (b < CANNON.idCounter (Hole.physicsWorld h))%nat ->
    CANNON.position (Hole.physicsWorld h') b
    = CANNON.position (Hole.physicsWorld h) b;
  ext_object3DId :
    (THREE.object3DId (Hole.scene h) <= THREE.object3DId (Hole.scene h'))%nat;
  ext_idCounter :
    (CANNON.idCounter (Hole.physicsWorld h)
     <= CANNON.idCounter (Hole.physicsWorld h'))%nat
}.

(** The time a sequence of frames takes. *)
Definition elapsed (dts : list R) : R := foldr Rplus 0 dts.

(** The state [checkSwallow] leaves when it removes the object. *)
Definition removed (h : Hole.t) (mesh body : nat) : Hole.t :=
  Hole.with_scene (THREE.remove mesh (Hole.scene h))
    (Hole.with_physicsWorld (CANNON.removeBody body (Hole.physicsWorld h)) h).

(** The horizontal distance from an object of the scene to the hole. *)
Definition horizontalDistance (h : Hole.t) (mesh : nat) : R :=
  let p := THREE.position (THREE.objects (Hole.scene h) mesh) in
  let dx := Vector3.x p - Vector3.x (Hole.position h) in
  let dz := Vector3.z p - Vector3.z (Hole.position h) in
  sqrt (dx * dx + dz * dz).

(** The radius [checkSwallow] takes every object to have, and the depth
    below which it takes an object to have fallen through. *)
Definition objRadius : R := 5 / 10.
Definition depthThreshold : R := -5.

(** The object is wholly inside the hole, and deep enough. *)
Definition swallows (h : Hole.t) (mesh : nat) : Prop :=
  horizontalDistance h mesh + objRadius < Hole.radius h
  /\ Vector3.y (THREE.position (THREE.objects (Hole.scene h) mesh))
     < depthThreshold.

(** A small hole to try statements on: a scene with the hole's group, the
    ground and one object, and a world with the ring and the body of that
    object.  The hole moves to the right at full speed. *)
Definition sample_scene : THREE.Scene :=
  THREE.mkScene [0; 1; 4]%nat (fun _ => THREE.fresh THREE.OtherGeometry) 5.

Definition sample_world : CANNON.World :=
  CANNON.mkWorld [0; 1; 2; 3; 4]%nat (fun _ => Vector3.zero) 5.

Definition sample_hole : Hole.t :=
  Hole.mk sample_scene sample_world 0 2 3 1 [0; 1; 2; 3]%nat (15 / 10)
          (Vector2.mk 8 0) ∅.

(** [sample_hole] with its object moved to [p]. *)
Definition sample_at (p : Vector3.t) : Hole.t :=
  Hole.with_scene (THREE.set_position 4 p sample_scene) sample_hole.

(** Whether a key of each direction is held, as [handleInput] asks. *)
Definition upHeld (h : Hole.t) : bool :=
  Hole.key h "ArrowUp" || Hole.key h "KeyW".
Definition downHeld (h : Hole.t) : bool :=
  Hole.key h "ArrowDown" || Hole.key h "KeyS".
Definition leftHeld (h : Hole.t) : bool :=
  Hole.key h "ArrowLeft" || Hole.key h "KeyA".
Definition rightHeld (h : Hole.t) : bool :=
  Hole.key h "ArrowRight" || Hole.key h "KeyD".

(** 1 for a key that is held, 0 for one that is not. *)
Definition indicator (b : bool) : R := if b then 1 else 0.

(** [sample_hole] at rest. *)
Definition sample_rest : Hole.t :=
  Hole.with_currentSpeed Vector2.zero sample_hole.

(** The distance in the ground plane between two positions. *)
Definition groundDistance (p q : Vector3.t) : R :=
  sqrt ((Vector3.x q - Vector3.x p) * (Vector3.x q - Vector3.x p)
        + (Vector3.z q - Vector3.z p) * (Vector3.z q - Vector3.z p)).




(** The time steps the frames of a session hand to [World.update], in
    order. *)
Fixpoint timeSteps (step : R -> R -> nat -> CANNON.World -> CANNON.World)
         (g : Game.t) (es : list Game.Event) : list R :=
  match es with
  | [] => []
  | e :: es =>
      match e with
      | Game.AnimationFrame currentTime => [Game.deltaTime g currentTime]
      | _ => []
      end
      ++ match Game.handle step g e with
         | Some g => timeSteps step g es
         | None => []
         end
  end.

(** The clock never runs backwards: the times of the frames, from [t0] on,
    do not decrease. *)
Fixpoint clock_monotone (t0 : R) (es : list Game.Event) : Prop :=
  match es with
  | [] => True
  | Game.AnimationFrame t :: es => t0 <= t /\ clock_monotone t es
  | _ :: es => clock_monotone t0 es
  end.

(** Draws for a session to try statements on: two trees, of which the
    first falls too close to the origin and is skipped. *)
Definition sample_draws : World.Draws :=
  World.mkDraws [(5 / 10, 5 / 10); (9 / 10, 9 / 10)] [] [] [].

(** A physics step that changes nothing. *)
Definition still : R -> R -> nat -> CANNON.World -> CANNON.World :=
  fun _ _ _ pw => pw.

(** The meshes and the bodies of the objects of the world, in order. *)
Definition meshes (w : World.t) : list nat := (World.objects w).*1.
Definition objectBodies (w : World.t) : list nat := (World.objects w).*2.

#[global] Instance Rlt_decision (a b : R) : Decision (a < b) := Rlt_dec a b.

(** A point [p] is wholly inside the hole and deep enough: the test of
    [checkSwallow] for a mesh at [p]. *)
Definition falls_in (h : Hole.t) (p : Vector3.t) : Prop :=
  groundDistance (Hole.position h) p + objRadius < Hole.radius h
  /\ Vector3.y p < depthThreshold.

#[global] Instance falls_in_decision (h : Hole.t) (p : Vector3.t) :
  Decision (falls_in h p) :=
  and_dec (Rlt_decision _ _) (Rlt_decision _ _).

(** The objects whose body, where the physics step of a frame leaves it,
    does not fall in the hole where the frame finds it. *)
Definition survivors (step : R -> R -> nat -> CANNON.World -> CANNON.World)
           (w : World.t) (dt : R) : list (nat * nat) :=
  filter
    (fun obj =>
       ~ falls_in (World.hole w)
           (CANNON.position (Hole.physicsWorld (World.stepped step w dt))
                            obj.2))
    (World.objects w).

(** The scene lists [base], then the meshes of the objects in their order,
    nothing twice; the hole's group is in [base]; no object has a body of
    the ring. *)
Record tidy (base : list nat) (w : World.t) : Prop := mkTidy {
  tidy_children : THREE.children (World.scene w) = base ++ meshes w;
  tidy_NoDup : NoDup (THREE.children (World.scene w));
  tidy_hole : Hole.mesh (World.hole w) ∈ base;
  tidy_ring : forall b,
    b ∈ Hole.groundBodies (World.hole w) -> b ∉ objectBodies w
}.

(** Every listed mesh is where its body is. *)
Definition synced (w : World.t) : Prop :=
  forall m b,
    (m, b) ∈ World.objects w ->
    THREE.position (THREE.objects (World.scene w) m)
    = CANNON.position (World.physicsWorld w) b.

(** A scene, or a physics world, that lists nothing twice and only objects
    created so far. *)
Definition neat_scene (sc : THREE.Scene) : Prop :=
  NoDup (THREE.children sc)
  /\ Forall (fun o => (o < THREE.object3DId sc)%nat) (THREE.children sc).

Definition neat_world (pw : CANNON.World) : Prop :=
  NoDup (CANNON.bodies pw)
  /\ Forall (fun b => (b < CANNON.idCounter pw)%nat) (CANNON.bodies pw).

(** An object as [addDecorations] leaves it: its mesh on the ground plane,
    at least 2 away from the origin, its body 5 above the mesh. *)
Definition spawned (w : World.t) (obj : nat * nat) : Prop :=
  let p := THREE.position (THREE.objects (World.scene w) obj.1) in
  Vector3.y p = 0
  /\ CANNON.position (World.physicsWorld w) obj.2
     = Vector3.mk (Vector3.x p) 5 (Vector3.z p)
  /\ 2 <= groundDistance Vector3.zero p.

(** One turn of a loop of [addDecorations] that is not skipped. *)
Definition spawn (pos : Vector3.t) (w : World.t) : World.t :=
  let '(mesh, sc) := ObjectGenerator.createMesh pos (World.scene w) in
  World.addPhysicsObject mesh
    (World.mk (Hole.with_scene sc (World.hole w)) (World.objects w)).

(** The world while its constructor runs, from the construction of the
    hole on. *)
Record raised (base : list nat) (w : World.t) : Prop := mkRaised {
  raised_scene : neat_scene (World.scene w);
  raised_world : neat_world (World.physicsWorld w);
  raised_allocated : allocated (World.hole w);
  raised_children : THREE.children (World.scene w) = base ++ meshes w;
  raised_bodies :
    CANNON.bodies (World.physicsWorld w)
    = Hole.groundBodies (World.hole w) ++ objectBodies w;
  raised_hole : Hole.mesh (World.hole w) ∈ base;
  raised_origin : Hole.position (World.hole w) = Vector3.zero;
  raised_spawned : Forall (spawned w) (World.objects w)
}.

(** The physics world holds the ring, then the bodies of the objects in
    their order, nothing twice. *)
Definition registry (w : World.t) : Prop :=
  CANNON.bodies (World.physicsWorld w)
  = Hole.groundBodies (World.hole w) ++ objectBodies w
  /\ NoDup (CANNON.bodies (World.physicsWorld w)).

(** A physics step that neither adds a body to the world nor removes
    one. *)
Definition keeps_bodies
           (step : R -> R -> nat -> CANNON.World -> CANNON.World) : Prop :=
  forall fixedTimeStep timeSinceLastCalled maxSubSteps pw,
    CANNON.bodies (step fixedTimeStep timeSinceLastCalled maxSubSteps pw)
    = CANNON.bodies pw.

(** What holds of a session between two events. *)
Definition orderly (base : list nat) (g : Game.t) : Prop :=
  settled (World.hole (Game.world g))
  /\ ring_placed (World.hole (Game.world g))
  /\ tidy base (Game.world g).

(** The draws of a loop of [addDecorations] whose turn is not skipped. *)
Definition placed (spread clearance : R) (draws : list (R * R))
  : list (R * R) :=
  filter
    (fun draw =>
       ~ Vector3.length (World.spawnPosition spread draw) < clearance)
    draws.

(** Where the meshes of the objects of the world are, in order. *)
Definition meshPositions (w : World.t) : list Vector3.t :=
  (fun m => THREE.position (THREE.objects (World.scene w) m)) <$> meshes w.

End Notions.

(** * Properties *)

(** A field of an object read through a stack of heap updates at ids
    that are offsets of one counter. *)
Ltac heap_lookup :=
  unfold insert, fn_insert; simpl;
  repeat (case_decide; try lia); reflexivity.

(** ** Arrays *)

Lemma splice_out_absent (i : nat) (l : list nat) :
  i ∉ l -> splice_out i l = l.
Proof.
  induction l as [|j l IH]; intros Hi; simpl; [reflexivity|].
  apply not_elem_of_cons in Hi as [Hij Hl].
  destruct (decide (i = j)); [contradiction|].
  f_equal. apply IH, Hl.
Qed.

Lemma splice_out_elem_of (i x : nat) (l : list nat) :
  x ∈ splice_out i l -> x ∈ l.
Proof.
  induction l as [|j l IH]; simpl; [trivial|].
  destruct (decide (i = j)); intros Hx.
  - apply elem_of_cons. right. exact Hx.
  - apply elem_of_cons in Hx as [->|Hx]; apply elem_of_cons; auto.
Qed.

Lemma splice_out_gone (i : nat) (l : list nat) :
  NoDup l -> i ∉ splice_out i l.
Proof.
  induction 1 as [|j l Hj Hl IH]; simpl; [apply not_elem_of_nil|].
  destruct (decide (i = j)) as [->|Hne]; [assumption|].
  apply not_elem_of_cons. split; assumption.
Qed.

(** ** Vectors *)
Section Vector2_facts.
Local Open Scope R_scope.


Lemma squares_nonneg (a b : R) : 0 <= a * a + b * b.
Proof. nra. Qed.

Lemma length_multiplyScalar (v : Vector2.t) (s : R) :
  Vector2.length (Vector2.multiplyScalar v s) = Rabs s * Vector2.length v.
Proof.
  destruct v as [a b]. unfold Vector2.length, Vector2.multiplyScalar. simpl.
  replace (a * s * (a * s) + b * s * (b * s)) with (Rsqr s * (a * a + b * b))
    by (unfold Rsqr; ring).
  rewrite sqrt_mult; [|apply Rle_0_sqr|apply squares_nonneg].
  rewrite sqrt_Rsqr_abs. reflexivity.
Qed.


Lemma length_zero : Vector2.length Vector2.zero = 0.
Proof.
  unfold Vector2.length, Vector2.zero. simpl.
  replace (0 * 0 + 0 * 0) with 0 by ring. apply sqrt_0.
Qed.

Lemma normalize_pos (v : Vector2.t) :
  0 < Vector2.length v ->
  Vector2.normalize v = Vector2.multiplyScalar v (1 / Vector2.length v).
Proof.
  intros H. unfold Vector2.normalize, Vector2.divideScalar.
  destruct (Req_dec_T (Vector2.length v) 0); [lra|reflexivity].
Qed.

Lemma length_normalize (v : Vector2.t) :
  0 < Vector2.length v -> Vector2.length (Vector2.normalize v) = 1.
Proof.
  intros H. rewrite normalize_pos by assumption.
  rewrite length_multiplyScalar.
  rewrite Rabs_pos_eq.
  - field. lra.
  - apply Rlt_le. unfold Rdiv. rewrite Rmult_1_l. apply Rinv_0_lt_compat, H.
Qed.

Lemma length_setLength (v : Vector2.t) (l : R) :
  0 < Vector2.length v -> 0 <= l ->
  Vector2.length (Vector2.setLength v l) = l.
Proof.
  intros Hv Hl. unfold Vector2.setLength.
  rewrite length_multiplyScalar, length_normalize by assumption.
  rewrite Rabs_pos_eq by assumption. ring.
Qed.
End Vector2_facts.

(** ** The speed cap *)
Section Speed.
Local Open Scope R_scope.

Lemma integrate_capped (input v : Vector2.t) (dt : R) :
  Vector2.length (Hole.integrate input v dt) <= Hole.maxSpeed.
Proof.
  unfold Hole.integrate.
  match goal with
  | |- context [Rgt_dec (Vector2.length ?w) Hole.maxSpeed] =>
      generalize w; intros v1
  end.
  destruct (Rgt_dec (Vector2.length v1) Hole.maxSpeed) as [Hgt|Hle].
  - unfold Hole.maxSpeed in *.
    rewrite length_setLength; lra.
  - lra.
Qed.

Lemma currentSpeed_handleInput (h : Hole.t) (dt : R) :
  Hole.currentSpeed (Hole.handleInput h dt)
  = Hole.integrate (Hole.readInput h) (Hole.currentSpeed h) dt.
Proof. reflexivity. Qed.

End Speed.

(** ** The two heaps *)
Section Heaps.
Local Open Scope R_scope.

Lemma renderOrder_set_position (o i : nat) (p : Vector3.t) (sc : THREE.Scene) :
  THREE.renderOrder (THREE.objects (THREE.set_position o p sc) i)
  = THREE.renderOrder (THREE.objects sc i).
Proof.
  unfold THREE.set_position. simpl.
  destruct (decide (o = i)) as [->|Hne].
  - rewrite fn_lookup_insert. reflexivity.
  - rewrite fn_lookup_insert_ne by assumption. reflexivity.
Qed.

Lemma geometry_set_position (o i : nat) (p : Vector3.t) (sc : THREE.Scene) :
  THREE.geometry (THREE.objects (THREE.set_position o p sc) i)
  = THREE.geometry (THREE.objects sc i).
Proof.
  unfold THREE.set_position. simpl.
  destruct (decide (o = i)) as [->|Hne].
  - rewrite fn_lookup_insert. reflexivity.
  - rewrite fn_lookup_insert_ne by assumption. reflexivity.
Qed.

Lemma position_addBody (b : nat) (w : CANNON.World) :
  CANNON.position (CANNON.addBody b w) = CANNON.position w.
Proof. unfold CANNON.addBody. by destruct (decide (b ∈ CANNON.bodies w)). Qed.

Lemma idCounter_addBody (b : nat) (w : CANNON.World) :
  CANNON.idCounter (CANNON.addBody b w) = CANNON.idCounter w.
Proof. unfold CANNON.addBody. by destruct (decide (b ∈ CANNON.bodies w)). Qed.
End Heaps.

(** ** The ring *)
Section Ring.
Local Open Scope R_scope.

Lemma ring_built_inv (h : Hole.t) :
  ring_built h ->
  exists b0 b1 b2 b3,
    Hole.groundBodies h = [b0; b1; b2; b3]
    /\ b0 <> b1 /\ b0 <> b2 /\ b0 <> b3 /\ b1 <> b2 /\ b1 <> b3 /\ b2 <> b3.
Proof.
  intros [Hlen Hnd].
  destruct (Hole.groundBodies h) as [|b0 [|b1 [|b2 [|b3 [|? ?]]]]];
    try discriminate.
  exists b0, b1, b2, b3. split; [reflexivity|].
  repeat match goal with
         | H : NoDup (_ :: _) |- _ => apply NoDup_cons in H as [? ?]
         end.
  repeat match goal with
         | H : _ ∉ _ :: _ |- _ => apply not_elem_of_cons in H as [? ?]
         end.
  repeat split; assumption.
Qed.

Lemma updatePhysicsHolePos_four (h : Hole.t) (b0 b1 b2 b3 : nat) :
  Hole.groundBodies h = [b0; b1; b2; b3] ->
  Hole.updatePhysicsHolePos h
  = Some (Hole.with_physicsWorld (placed_world h b0 b1 b2 b3) h).
Proof.
  intros Hg. unfold Hole.updatePhysicsHolePos. rewrite Hg. reflexivity.
Qed.

Lemma updatePhysicsHolePos_placed (h : Hole.t) :
  ring_built h ->
  exists pw,
    Hole.updatePhysicsHolePos h = Some (Hole.with_physicsWorld pw h)
    /\ CANNON.bodies pw = CANNON.bodies (Hole.physicsWorld h)
    /\ ring_placed (Hole.with_physicsWorld pw h).
Proof.
  intros Hb.
  destruct (ring_built_inv h Hb)
    as (b0 & b1 & b2 & b3 & Hg & H01 & H02 & H03 & H12 & H13 & H23).
  exists (placed_world h b0 b1 b2 b3).
  split; [by apply updatePhysicsHolePos_four|].
  split; [reflexivity|].
  unfold ring_placed, segment. simpl. rewrite Hg. simpl.
  unfold placed_world, Hole.halfExtent, Hole.groundSize, Hole.position.
  simpl.
  repeat split; f_equal.
  - rewrite !fn_lookup_insert_ne by congruence. rewrite fn_lookup_insert.
    f_equal; lra.
  - rewrite !fn_lookup_insert_ne by congruence. rewrite fn_lookup_insert.
    f_equal; lra.
  - rewrite !fn_lookup_insert_ne by congruence. rewrite fn_lookup_insert.
    f_equal; lra.
  - rewrite fn_lookup_insert. f_equal; lra.
Qed.

Lemma ring_placed_opening (h : Hole.t) :
  ring_placed h -> ring_opening h (Hole.radius h).
Proof.
  intros (H0 & H1 & H2 & H3). unfold ring_opening.
  eexists _, _, _, _.
  split; [exact H0|]. split; [exact H1|].
  split; [exact H2|]. split; [exact H3|].
  simpl. repeat split; lra.
Qed.
End Ring.

(** ** What every operation keeps *)
Section Frame.
Local Open Scope R_scope.

Lemma kept_refl (h : Hole.t) : kept h h.
Proof. by constructor. Qed.

Lemma kept_trans (h1 h2 h3 : Hole.t) : kept h1 h2 -> kept h2 h3 -> kept h1 h3.
Proof.
  intros [] []. constructor; congruence.
Qed.

Lemma settled_kept (h h' : Hole.t) :
  kept h h' ->
  Vector2.length (Hole.currentSpeed h') <= Hole.maxSpeed ->
  settled h -> settled h'.
Proof.
  intros [] Hv [[Hlen Hnd] Hr Hm Hg Hi Hmg Hig _].
  unfold maskOrder, groundOrder, interiorOrder, maskGeometry,
    interiorGeometry in *.
  constructor;
    unfold ring_built, maskOrder, groundOrder, interiorOrder, maskGeometry,
      interiorGeometry;
    try congruence.
  split; congruence.
Qed.

Lemma kept_with_physicsWorld (pw : CANNON.World) (h : Hole.t) :
  kept h (Hole.with_physicsWorld pw h).
Proof. by constructor. Qed.

Lemma kept_with_keys (ks : gmap string bool) (h : Hole.t) :
  kept h (Hole.with_keys ks h).
Proof. by constructor. Qed.

Lemma kept_with_scene_set_position (o : nat) (p : Vector3.t) (h : Hole.t) :
  kept h (Hole.with_scene (THREE.set_position o p (Hole.scene h)) h).
Proof.
  constructor; try reflexivity; intros i; simpl.
  - apply renderOrder_set_position.
  - apply geometry_set_position.
Qed.

Lemma kept_handleInput (h : Hole.t) (dt : R) : kept h (Hole.handleInput h dt).
Proof.
  unfold Hole.handleInput.
  constructor; try reflexivity; intros i; simpl.
  - apply renderOrder_set_position.
  - apply geometry_set_position.
Qed.

Lemma kept_checkSwallow (h : Hole.t) (mesh body : nat) :
  kept h (Hole.checkSwallow h mesh body).
Proof.
  unfold Hole.checkSwallow.
  repeat match goal with
         | |- context [Rlt_dec ?a ?b] => destruct (Rlt_dec a b)
         end; by constructor.
Qed.

Lemma currentSpeed_checkSwallow (h : Hole.t) (mesh body : nat) :
  Hole.currentSpeed (Hole.checkSwallow h mesh body) = Hole.currentSpeed h.
Proof.
  unfold Hole.checkSwallow.
  repeat match goal with
         | |- context [Rlt_dec ?a ?b] => destruct (Rlt_dec a b)
         end; reflexivity.
Qed.

Lemma kept_syncAndCheck (h : Hole.t) (obj : nat * nat) :
  kept h (World.syncAndCheck h obj).
Proof.
  destruct obj as [mesh body]. unfold World.syncAndCheck.
  eapply kept_trans; [|apply kept_checkSwallow].
  apply kept_with_scene_set_position.
Qed.

Lemma currentSpeed_syncAndCheck (h : Hole.t) (obj : nat * nat) :
  Hole.currentSpeed (World.syncAndCheck h obj) = Hole.currentSpeed h.
Proof.
  destruct obj as [mesh body]. unfold World.syncAndCheck.
  by rewrite currentSpeed_checkSwallow.
Qed.

Lemma kept_sync_loop (objs : list (nat * nat)) (h : Hole.t) :
  kept h (fold_left World.syncAndCheck objs h)
  /\ Hole.currentSpeed (fold_left World.syncAndCheck objs h)
     = Hole.currentSpeed h.
Proof.
  revert h. induction objs as [|obj objs IH]; intros h; simpl.
  - split; [apply kept_refl|reflexivity].
  - destruct (IH (World.syncAndCheck h obj)) as [Hk Hv]. split.
    + eapply kept_trans; [apply kept_syncAndCheck|exact Hk].
    + by rewrite Hv, currentSpeed_syncAndCheck.
Qed.

(** The placement of the ring depends on the centre, the radius, the ring
    and the positions of the bodies only. *)
Lemma ring_placed_frame (h h' : Hole.t) :
  Hole.position h' = Hole.position h ->
  Hole.radius h' = Hole.radius h ->
  Hole.groundBodies h' = Hole.groundBodies h ->
  CANNON.position (Hole.physicsWorld h')
  = CANNON.position (Hole.physicsWorld h) ->
  ring_placed h -> ring_placed h'.
Proof.
  unfold ring_placed, segment. intros -> -> -> ->. trivial.
Qed.

Lemma ring_placed_checkSwallow (h : Hole.t) (mesh body : nat) :
  ring_placed h -> ring_placed (Hole.checkSwallow h mesh body).
Proof.
  apply ring_placed_frame; unfold Hole.checkSwallow;
    repeat match goal with
           | |- context [Rlt_dec ?a ?b] => destruct (Rlt_dec a b)
           end; reflexivity.
Qed.
End Frame.

(** ** One call, one frame, one session *)
Section Steps.
Local Open Scope R_scope.

Lemma ring_built_kept (h h' : Hole.t) :
  kept h h' -> ring_built h -> ring_built h'.
Proof. intros [] [Hlen Hnd]. split; congruence. Qed.

(** [update] moves the hole, then places the ring around where it is. *)
Lemma update_places (h : Hole.t) (dt : R) :
  ring_built h ->
  exists pw,
    Hole.update h dt
    = Some (Hole.with_physicsWorld pw (Hole.handleInput h dt))
    /\ CANNON.bodies pw = CANNON.bodies (Hole.physicsWorld h)
    /\ ring_placed (Hole.with_physicsWorld pw (Hole.handleInput h dt)).
Proof.
  intros Hb. unfold Hole.update.
  apply (updatePhysicsHolePos_placed (Hole.handleInput h dt)).
  eapply ring_built_kept; [apply kept_handleInput|assumption].
Qed.

Lemma update_settled (h : Hole.t) (dt : R) :
  settled h ->
  exists h',
    Hole.update h dt = Some h' /\ settled h' /\ ring_placed h' /\ kept h h'
    /\ THREE.children (Hole.scene h') = THREE.children (Hole.scene h).
Proof.
  intros Hs.
  destruct (update_places h dt (settled_ring h Hs)) as (pw & Hu & _ & Hp).
  eexists. split; [exact Hu|].
  assert (Hk : kept h (Hole.with_physicsWorld pw (Hole.handleInput h dt))).
  { eapply kept_trans; [apply kept_handleInput|].
    apply kept_with_physicsWorld. }
  split; [|split; [exact Hp|split; [exact Hk|reflexivity]]].
  eapply settled_kept; [exact Hk| |exact Hs].
  simpl. apply integrate_capped.
Qed.

Lemma call_settled (h : Hole.t) (c : Hole.Call) :
  settled h -> ring_placed h ->
  exists h', Hole.call h c = Some h' /\ settled h' /\ ring_placed h'.
Proof.
  intros Hs Hp. destruct c as [dt|mesh body|code|code]; simpl.
  - destruct (update_settled h dt Hs) as (h' & Hu & Hs' & Hp' & _).
    exists h'. auto.
  - eexists. split; [reflexivity|]. split.
    + eapply settled_kept; [apply kept_checkSwallow| |exact Hs].
      rewrite currentSpeed_checkSwallow. apply (settled_speed h Hs).
    + by apply ring_placed_checkSwallow.
  - eexists. split; [reflexivity|]. split.
    + eapply settled_kept; [apply kept_with_keys| |exact Hs].
      apply (settled_speed h Hs).
    + exact Hp.
  - eexists. split; [reflexivity|]. split.
    + eapply settled_kept; [apply kept_with_keys| |exact Hs].
      apply (settled_speed h Hs).
    + exact Hp.
Qed.

Lemma calls_settled (cs : list Hole.Call) (h : Hole.t) :
  settled h -> ring_placed h ->
  exists h', Hole.calls h cs = Some h' /\ settled h' /\ ring_placed h'.
Proof.
  revert h. induction cs as [|c cs IH]; intros h Hs Hp; simpl.
  - exists h. auto.
  - destruct (call_settled h c Hs Hp) as (h1 & -> & Hs1 & Hp1). simpl.
    apply IH; assumption.
Qed.

Section Physics.
Variable step : R -> R -> nat -> CANNON.World -> CANNON.World.

Lemma World_update_settled (w : World.t) (dt : R) :
  settled (World.hole w) ->
  exists w',
    World.update step w dt = Some w'
    /\ settled (World.hole w') /\ ring_placed (World.hole w')
    /\ kept (World.hole w) (World.hole w').
Proof.
  intros Hs. unfold World.update.
  set (h2 := fold_left World.syncAndCheck (World.objects w)
                       (World.stepped step w dt)).
  assert (Hk : kept (World.hole w) h2).
  { eapply kept_trans; [|apply kept_sync_loop].
    apply kept_with_physicsWorld. }
  assert (Hs2 : settled h2).
  { eapply settled_kept; [exact Hk| |exact Hs].
    unfold h2. rewrite (proj2 (kept_sync_loop _ _)). simpl.
    apply (settled_speed _ Hs). }
  destruct (update_settled h2 dt Hs2) as (h' & -> & Hs' & Hp' & Hk' & _).
  simpl. eexists. split; [reflexivity|]. simpl.
  split; [exact Hs'|]. split; [exact Hp'|].
  eapply kept_trans; eassumption.
Qed.

Lemma handle_settled (g : Game.t) (e : Game.Event) :
  settled (World.hole (Game.world g)) ->
  ring_placed (World.hole (Game.world g)) ->
  exists g',
    Game.handle step g e = Some g'
    /\ settled (World.hole (Game.world g'))
    /\ ring_placed (World.hole (Game.world g'))
    /\ kept (World.hole (Game.world g)) (World.hole (Game.world g')).
Proof.
  intros Hs Hp. destruct e as [currentTime|code|code]; simpl.
  - unfold Game.animate.
    destruct (World_update_settled (Game.world g)
                (Game.deltaTime g currentTime) Hs)
      as (w' & -> & Hs' & Hp' & Hk).
    simpl. eexists. split; [reflexivity|]. simpl. auto.
  - eexists. split; [reflexivity|]. simpl. split; [|split].
    + eapply settled_kept; [apply kept_with_keys| |exact Hs].
      apply (settled_speed _ Hs).
    + exact Hp.
    + apply kept_with_keys.
  - eexists. split; [reflexivity|]. simpl. split; [|split].
    + eapply settled_kept; [apply kept_with_keys| |exact Hs].
      apply (settled_speed _ Hs).
    + exact Hp.
    + apply kept_with_keys.
Qed.

Lemma run_settled (es : list Game.Event) (g : Game.t) :
  settled (World.hole (Game.world g)) ->
  ring_placed (World.hole (Game.world g)) ->
  exists g',
    Game.run step g es = Some g'
    /\ settled (World.hole (Game.world g'))
    /\ ring_placed (World.hole (Game.world g'))
    /\ kept (World.hole (Game.world g)) (World.hole (Game.world g')).
Proof.
  revert g. induction es as [|e es IH]; intros g Hs Hp; simpl.
  - exists g. split; [reflexivity|]. split; [exact Hs|].
    split; [exact Hp|apply kept_refl].
  - destruct (handle_settled g e Hs Hp) as (g1 & -> & Hs1 & Hp1 & Hk1).
    simpl. destruct (IH g1 Hs1 Hp1) as (g' & Hr & Hs' & Hp' & Hk').
    exists g'. split; [exact Hr|]. split; [exact Hs'|].
    split; [exact Hp'|]. eapply kept_trans; eassumption.
Qed.

End Physics.
End Steps.

(** ** Construction *)
Section Construction.
Local Open Scope R_scope.

Lemma extends_refl (h : Hole.t) : extends h h.
Proof. by constructor. Qed.

Lemma extends_trans (h1 h2 h3 : Hole.t) :
  extends h1 h2 -> extends h2 h3 -> extends h1 h3.
Proof.
  intros [] []. constructor; try congruence; try lia.
  - intros i Hi. etrans; [apply ext_objects1; lia|by apply ext_objects0].
  - intros b Hb. etrans; [apply ext_positions1; lia|by apply ext_positions0].
Qed.

Lemma segment_extends (h h' : Hole.t) (i : nat) :
  extends h h' -> allocated h -> segment h' i = segment h i.
Proof.
  intros He Ha. unfold segment. rewrite (ext_groundBodies _ _ He).
  destruct (Hole.groundBodies h !! i) as [b|] eqn:Hb; simpl; [|reflexivity].
  f_equal. apply (ext_positions _ _ He).
  eapply (proj1 (Forall_forall _ _) (allocated_ring _ Ha)).
  eapply list_elem_of_lookup_2, Hb.
Qed.

Lemma founded_extends (h h' : Hole.t) :
  extends h h' ->
  settled h /\ ring_placed h /\ allocated h ->
  settled h' /\ ring_placed h' /\ allocated h'.
Proof.
  intros He (Hs & Hp & Ha).
  pose proof He as [Em Ek Ei Eg Eb Er Ev Eo Ep E3 Ec].
  destruct Ha as [Am Ak Ai Ag Ab].
  split; [|split].
  - destruct Hs as [[Hlen Hnd] Hr Hm Hg Hi Hmg Hig Hv].
    unfold maskOrder, groundOrder, interiorOrder, maskGeometry,
      interiorGeometry in *.
    constructor;
      unfold ring_built, maskOrder, groundOrder, interiorOrder,
        maskGeometry, interiorGeometry;
      rewrite ?Ek, ?Ei, ?Eg, ?Eb, ?Er, ?Ev, ?Eo by assumption;
      auto.
  - unfold ring_placed.
    rewrite !(segment_extends h h') by (assumption || by constructor).
    unfold Hole.position. rewrite Em, Er, Eo by assumption. exact Hp.
  - constructor; rewrite ?Em, ?Ek, ?Ei, ?Eg, ?Eb; try lia.
    eapply Forall_impl; [exact Ab|]. simpl. intros b Hb. lia.
Qed.

(** A turn of a decoration loop that spawns an object. *)
Lemma extends_spawn (w : World.t) (pos : Vector3.t) :
  extends (World.hole w)
    (World.hole
       (let '(mesh, sc) := ObjectGenerator.createMesh pos (World.scene w) in
        World.addPhysicsObject mesh
          (World.mk (Hole.with_scene sc (World.hole w)) (World.objects w)))).
Proof.
  unfold ObjectGenerator.createMesh, World.addPhysicsObject, World.scene,
    World.physicsWorld.
  simpl. constructor; simpl; try reflexivity; try lia.
  - intros i Hi. rewrite !fn_lookup_insert_ne by lia. reflexivity.
  - intros b Hb. rewrite position_addBody. simpl.
    rewrite fn_lookup_insert_ne by lia. reflexivity.
  - rewrite idCounter_addBody. simpl. lia.
Qed.

Lemma extends_decorate (spread clearance : R) (draws : list (R * R))
      (w : World.t) :
  extends (World.hole w)
          (World.hole (World.decorate spread clearance draws w)).
Proof.
  unfold World.decorate. revert w.
  induction draws as [|draw draws IH]; intros w; simpl.
  - apply extends_refl.
  - eapply extends_trans; [|apply IH].
    destruct (Rlt_dec _ clearance); [apply extends_refl|].
    apply extends_spawn.
Qed.

Lemma extends_addDecorations (d : World.Draws) (w : World.t) :
  extends (World.hole w) (World.hole (World.addDecorations d w)).
Proof.
  unfold World.addDecorations.
  repeat (eapply extends_trans; [|apply extends_decorate]).
  apply extends_refl.
Qed.

Lemma addGroundBody_ring (h : Hole.t) :
  Hole.groundBodies (Hole.addGroundBody h)
  = Hole.groundBodies h ++ [CANNON.idCounter (Hole.physicsWorld h)].
Proof. reflexivity. Qed.

Lemma addGroundBody_idCounter (h : Hole.t) :
  CANNON.idCounter (Hole.physicsWorld (Hole.addGroundBody h))
  = S (CANNON.idCounter (Hole.physicsWorld h)).
Proof.
  unfold Hole.addGroundBody. simpl. by rewrite idCounter_addBody.
Qed.

(** The loop of [setupPhysics] on a hole without ground bodies. *)
Lemma four_ground_bodies (h : Hole.t) :
  Hole.groundBodies h = [] ->
  let m := CANNON.idCounter (Hole.physicsWorld h) in
  let h4 := Nat.iter 4 Hole.addGroundBody h in
  Hole.groundBodies h4 = [m; S m; S (S m); S (S (S m))]
  /\ CANNON.idCounter (Hole.physicsWorld h4) = S (S (S (S m)))
  /\ Hole.scene h4 = Hole.scene h
  /\ Hole.mesh h4 = Hole.mesh h
  /\ Hole.holeMask h4 = Hole.holeMask h
  /\ Hole.holeInterior h4 = Hole.holeInterior h
  /\ Hole.ground h4 = Hole.ground h
  /\ Hole.radius h4 = Hole.radius h
  /\ Hole.currentSpeed h4 = Hole.currentSpeed h.
Proof.
  intros Hg m h4. unfold h4. simpl Nat.iter.
  rewrite !addGroundBody_ring, !addGroundBody_idCounter, Hg.
  split; [reflexivity|]. split; [reflexivity|]. repeat split.
Qed.

Lemma four_distinct (m : nat) : NoDup [m; S m; S (S m); S (S (S m))].
Proof.
  repeat (apply NoDup_cons; split;
          [rewrite ?not_elem_of_cons; repeat split;
           try lia; apply not_elem_of_nil|]).
  apply NoDup_nil_2.
Qed.

Lemma allocated_placed (h : Hole.t) (b0 b1 b2 b3 : nat) :
  allocated h ->
  allocated (Hole.with_physicsWorld (placed_world h b0 b1 b2 b3) h).
Proof. intros []. by constructor. Qed.

(** The constructor of the hole returns, and what it returns is settled,
    with the ring placed around it. *)
Lemma Hole_new_founded (sc : THREE.Scene) (pw : CANNON.World) :
  exists h,
    Hole.new sc pw = Some h
    /\ settled h /\ ring_placed h /\ allocated h
    /\ Hole.currentSpeed h = Vector2.zero.
Proof.
  unfold Hole.new, Hole.setupPhysics.
  destruct (THREE.create THREE.NoGeometry sc) as [mesh sc1] eqn:Hc.
  injection Hc as <- <-.
  match goal with
  | |- context [Nat.iter 4 Hole.addGroundBody ?h0] => set (hv := h0)
  end.
  destruct (four_ground_bodies hv eq_refl)
    as (Hg & Hid & Hsc & Hm & Hk & Hi & Hgr & Hr & Hv).
  set (h4 := Nat.iter 4 Hole.addGroundBody hv) in *.
  rewrite (updatePhysicsHolePos_four h4 _ _ _ _ Hg).
  eexists. split; [reflexivity|].
  assert (Hb : ring_built h4).
  { split; [by rewrite Hg|]. rewrite Hg. apply four_distinct. }
  destruct (updatePhysicsHolePos_placed h4 Hb) as (pw' & Hu & _ & Hp).
  rewrite (updatePhysicsHolePos_four h4 _ _ _ _ Hg) in Hu.
  injection Hu as <-.
  split; [|split; [exact Hp|split]].
  - constructor; simpl;
      unfold ring_built, maskOrder, groundOrder, interiorOrder,
        maskGeometry, interiorGeometry; simpl;
      rewrite ?Hsc, ?Hk, ?Hi, ?Hgr, ?Hr, ?Hv; simpl.
    + exact Hb.
    + reflexivity.
    + heap_lookup.
    + heap_lookup.
    + heap_lookup.
    + heap_lookup.
    + heap_lookup.
    + rewrite length_zero. unfold Hole.maxSpeed. lra.
  - apply allocated_placed.
    constructor; rewrite ?Hsc, ?Hm, ?Hk, ?Hi, ?Hgr, ?Hg, ?Hid;
      try (unfold hv; simpl; lia).
    repeat (apply Forall_cons; split; [lia|]). apply Forall_nil_2.
  - change (Hole.currentSpeed h4 = Vector2.zero). by rewrite Hv.
Qed.

Lemma World_new_founded (sc : THREE.Scene) (d : World.Draws) :
  exists w,
    World.new sc d = Some w
    /\ settled (World.hole w) /\ ring_placed (World.hole w).
Proof.
  unfold World.new.
  destruct (THREE.create THREE.NoGeometry sc) as [ambientLight sc1].
  destruct (THREE.create THREE.NoGeometry (THREE.add ambientLight sc1))
    as [dirLight sc2].
  match goal with
  | |- context [Hole.new ?s ?p] =>
      destruct (Hole_new_founded s p) as (h & -> & Hs & Hp & Ha & _)
  end.
  simpl. eexists. split; [reflexivity|].
  destruct (founded_extends h _
              (extends_addDecorations d (World.mk h []))
              (conj Hs (conj Hp Ha))) as (Hs' & Hp' & _).
  auto.
Qed.

Lemma Game_new_founded (d : World.Draws) (now : R) :
  exists g,
    Game.new d now = Some g
    /\ settled (World.hole (Game.world g))
    /\ ring_placed (World.hole (Game.world g)).
Proof.
  unfold Game.new.
  destruct (World_new_founded THREE.empty d) as (w & -> & Hs & Hp).
  simpl. eexists. split; [reflexivity|]. auto.
Qed.
End Construction.

(** ** Friction *)
Section Friction.
Local Open Scope R_scope.

Lemma readInput_no_direction (h : Hole.t) :
  no_direction h -> Hole.readInput h = Vector2.zero.
Proof.
  unfold no_direction. intros H.
  repeat match goal with
         | H : Forall _ (_ :: _) |- _ => apply Forall_cons in H as [? H]
         end.
  unfold Hole.readInput.
  repeat match goal with
         | E : Hole.key h _ = false |- _ => rewrite E; clear E
         end.
  reflexivity.
Qed.

(** Without input, a speed below the friction step is set to zero. *)
Lemma integrate_stops (v : Vector2.t) (dt : R) :
  Vector2.length v < Hole.friction * dt ->
  Hole.integrate Vector2.zero v dt = Vector2.zero.
Proof.
  intros Hlt. unfold Hole.integrate. rewrite length_zero.
  destruct (Rgt_dec 0 0) as [?|_]; [lra|].
  rewrite length_zero.
  destruct (Rgt_dec 0 0) as [?|_]; [lra|].
  destruct (Rlt_dec (Vector2.length v) (Hole.friction * dt)) as [_|?];
    [|contradiction].
  fold Vector2.zero. rewrite length_zero.
  unfold Hole.maxSpeed. destruct (Rgt_dec 0 8); [lra|reflexivity].
Qed.

End Friction.

(** ** Swallowing *)
Section Swallow.
Local Open Scope R_scope.

Lemma checkSwallow_yes (h : Hole.t) (mesh body : nat) :
  swallows h mesh -> Hole.checkSwallow h mesh body = removed h mesh body.
Proof.
  unfold swallows, horizontalDistance, Hole.checkSwallow, removed,
    objRadius, depthThreshold.
  intros [Hin Hdeep].
  destruct (Rlt_dec _ (Hole.radius h)); [|contradiction].
  destruct (Rlt_dec _ (-5)); [reflexivity|contradiction].
Qed.

Lemma checkSwallow_no (h : Hole.t) (mesh body : nat) :
  ~ swallows h mesh -> Hole.checkSwallow h mesh body = h.
Proof.
  unfold swallows, horizontalDistance, Hole.checkSwallow, objRadius,
    depthThreshold.
  intros Hno.
  destruct (Rlt_dec _ (Hole.radius h)); [|reflexivity].
  destruct (Rlt_dec _ (-5)); [|reflexivity].
  exfalso. apply Hno. split; assumption.
Qed.

Lemma swallows_dec (h : Hole.t) (mesh : nat) :
  swallows h mesh \/ ~ swallows h mesh.
Proof.
  unfold swallows.
  match goal with
  | |- (?a < ?b /\ ?c < ?d) \/ _ =>
      destruct (Rlt_dec a b); [destruct (Rlt_dec c d)|]
  end; [left; split; assumption|right; intros []; contradiction..].
Qed.


Lemma removed_gone (h : Hole.t) (mesh body : nat) :
  NoDup (THREE.children (Hole.scene h)) ->
  NoDup (CANNON.bodies (Hole.physicsWorld h)) ->
  (mesh ∉ THREE.children (Hole.scene (removed h mesh body)))
  /\ (body ∉ CANNON.bodies (Hole.physicsWorld (removed h mesh body))).
Proof.
  intros Hm Hb. simpl. split; by apply splice_out_gone.
Qed.


End Swallow.

(** * The claims *)
Local Open Scope R_scope.

(** The sample hole sits at the origin with radius 1.5; its object is at
    distance [a] along the x axis. *)
Lemma sample_distance (a y : R) :
  0 <= a -> horizontalDistance (sample_at (Vector3.mk a y 0)) 4 = a.
Proof.
  intros Ha. unfold horizontalDistance, Hole.position. simpl.
  replace ((a - 0) * (a - 0) + (0 - 0) * (0 - 0)) with (Rsqr a)
    by (unfold Rsqr; ring).
  by apply sqrt_Rsqr.
Qed.

Lemma sample_depth (a y : R) :
  Vector3.y (THREE.position
               (THREE.objects (Hole.scene (sample_at (Vector3.mk a y 0))) 4))
  = y.
Proof. reflexivity. Qed.

(** At distance 0 and depth -6 the object is swallowed: 0 + 0.5 < 1.5 and
    -6 < -5. *)
Example swallowed_in_the_middle :
  Hole.checkSwallow (sample_at (Vector3.mk 0 (-6) 0)) 4 4
  = removed (sample_at (Vector3.mk 0 (-6) 0)) 4 4.
Proof.
  apply checkSwallow_yes. unfold swallows.
  rewrite sample_distance, sample_depth by lra.
  unfold objRadius, depthThreshold. simpl. lra.
Qed.

(** At distance 1.2 and depth -6 it is not: 1.2 + 0.5 is not below 1.5. *)
Example not_swallowed_on_the_rim :
  Hole.checkSwallow (sample_at (Vector3.mk (12 / 10) (-6) 0)) 4 4
  = sample_at (Vector3.mk (12 / 10) (-6) 0).
Proof.
  apply checkSwallow_no. unfold swallows.
  rewrite sample_distance, sample_depth by lra.
  unfold objRadius, depthThreshold. simpl. lra.
Qed.

(** At distance 0 and depth -2 it is not yet: -2 is not below -5. *)
Example not_swallowed_above_the_threshold :
  Hole.checkSwallow (sample_at (Vector3.mk 0 (-2) 0)) 4 4
  = sample_at (Vector3.mk 0 (-2) 0).
Proof.
  apply checkSwallow_no. unfold swallows.
  rewrite sample_distance, sample_depth by lra.
  unfold objRadius, depthThreshold. simpl. lra.
Qed.

(** At distance 1 exactly, where 1 + 0.5 is the radius, it is not. *)
Example not_swallowed_at_the_threshold :
  Hole.checkSwallow (sample_at (Vector3.mk 1 (-6) 0)) 4 4
  = sample_at (Vector3.mk 1 (-6) 0).
Proof.
  apply checkSwallow_no. unfold swallows.
  rewrite sample_distance, sample_depth by lra.
  unfold objRadius, depthThreshold. simpl. lra.
Qed.

(** C1.  [checkSwallow] removes the body from the physics world and the
    mesh from the scene when the horizontal distance from the object to the
    hole plus the object radius 0.5 is strictly below the hole's radius and
    the object is strictly below the depth -5, and changes nothing
    otherwise, in particular when the distance plus the object radius
    equals the hole's radius.  So an object that was in the scene and in
    the world is in neither afterwards exactly when both conditions
    hold. *)
Theorem checkSwallow_exactly_when (h : Hole.t) (mesh body : nat) :
  let h' := Hole.checkSwallow h mesh body in
  (swallows h mesh
   <-> horizontalDistance h mesh + 1 / 2 < Hole.radius h
       /\ Vector3.y (THREE.position (THREE.objects (Hole.scene h) mesh)) < -5)
  /\ (swallows h mesh -> h' = removed h mesh body)
  /\ (~ swallows h mesh -> h' = h)
  /\ (horizontalDistance h mesh + 1 / 2 = Hole.radius h -> h' = h)
  /\ (mesh ∈ THREE.children (Hole.scene h) ->
      body ∈ CANNON.bodies (Hole.physicsWorld h) ->
      NoDup (THREE.children (Hole.scene h)) ->
      NoDup (CANNON.bodies (Hole.physicsWorld h)) ->
      ((mesh ∉ THREE.children (Hole.scene h'))
       /\ (body ∉ CANNON.bodies (Hole.physicsWorld h')))
      <-> swallows h mesh).
Proof.
  intros h'.
  assert (Hyes : swallows h mesh -> h' = removed h mesh body)
    by apply checkSwallow_yes.
  assert (Hno : ~ swallows h mesh -> h' = h) by apply checkSwallow_no.
  split; [|split; [exact Hyes|split; [exact Hno|split]]].
  - unfold swallows, objRadius, depthThreshold.
    split; intros [Hin Hdeep]; split; lra.
  - intros Heq. apply Hno. unfold swallows, objRadius. intros [Hlt _]. lra.
  - intros Hm Hb Hnm Hnb. split.
    + intros [Hgone _].
      destruct (swallows_dec h mesh) as [Hs|Hs]; [exact Hs|].
      exfalso. apply Hgone. rewrite (Hno Hs). exact Hm.
    + intros Hs. rewrite (Hyes Hs). by apply removed_gone.
Qed.

Lemma checkSwallow_exactly_when_witness :
  let h := sample_at (Vector3.mk 0 (-6) 0) in
  (4%nat ∉ THREE.children (Hole.scene (Hole.checkSwallow h 4 4)))
  /\ (4%nat ∉ CANNON.bodies (Hole.physicsWorld (Hole.checkSwallow h 4 4))).
Proof.
  intros h.
  destruct (checkSwallow_exactly_when h 4 4) as (Hw & _ & _ & _ & Hiff).
  apply Hiff.
  - simpl. apply list_elem_of_In. simpl. tauto.
  - simpl. apply list_elem_of_In. simpl. tauto.
  - simpl. apply NoDup_ListNoDup.
    repeat (constructor; [simpl; lia|]). constructor.
  - simpl. apply NoDup_ListNoDup.
    repeat (constructor; [simpl; lia|]). constructor.
  - apply Hw. unfold h. rewrite sample_distance, sample_depth by lra.
    simpl. lra.
Defined.

(** C2.  After a call of [Hole.update] on a hole with its ring of four, the
    +X, -X, -Z and +Z segments are at the centre plus or minus (radius +
    half extent) along their axis, for the position the hole has after the
    call; the half extent is half the size of a segment, so the inner edges
    bound a square of half-width the radius around the hole. *)
Theorem ring_follows_hole (h : Hole.t) (dt : R) :
  ring_built h ->
  exists h',
    Hole.update h dt = Some h'
    /\ ring_placed h'
    /\ ring_opening h' (Hole.radius h')
    /\ Hole.halfExtent = Hole.groundSize / 2.
Proof.
  intros Hb. destruct (update_places h dt Hb) as (pw & Hu & _ & Hp).
  eexists. split; [exact Hu|]. split; [exact Hp|].
  split; [by apply ring_placed_opening|reflexivity].
Qed.

Lemma sample_ring_built : ring_built sample_hole.
Proof.
  split; [reflexivity|]. simpl. apply NoDup_ListNoDup.
  repeat (constructor; [simpl; lia|]). constructor.
Qed.

Lemma ring_follows_hole_witness :
  exists h',
    Hole.update sample_hole (1 / 60) = Some h'
    /\ ring_placed h'
    /\ ring_opening h' (Hole.radius h')
    /\ Hole.halfExtent = Hole.groundSize / 2.
Proof. apply ring_follows_hole, sample_ring_built. Defined.








Lemma sample_no_direction : no_direction sample_hole.
Proof. unfold no_direction. repeat constructor. Qed.




(** C7.  In every session, after any events, the mask has render order -1,
    the ground 0 and the interior 1: mask before ground before interior,
    whatever the positions of the objects. *)
Theorem render_order
        (step : R -> R -> nat -> CANNON.World -> CANNON.World)
        (d : World.Draws) (now : R) :
  exists g0,
    Game.new d now = Some g0
    /\ forall es : list Game.Event,
        exists g,
          Game.run step g0 es = Some g
          /\ maskOrder (World.hole (Game.world g)) = (-1)%Z
          /\ groundOrder (World.hole (Game.world g)) = 0%Z
          /\ interiorOrder (World.hole (Game.world g)) = 1%Z
          /\ (maskOrder (World.hole (Game.world g))
              < groundOrder (World.hole (Game.world g))
              < interiorOrder (World.hole (Game.world g)))%Z.
Proof.
  destruct (Game_new_founded d now) as (g0 & Hnew & Hs & Hp).
  exists g0. split; [exact Hnew|]. intros es.
  destruct (run_settled step es g0 Hs Hp) as (g & Hr & [] & _).
  exists g. split; [exact Hr|]. repeat split; try assumption; lia.
Qed.

(** C8.  In every session, from the state any events reach to the state
    any further events reach, the next frame in particular, the radius of
    the hole does not decrease. *)
Theorem radius_never_decreases
        (step : R -> R -> nat -> CANNON.World -> CANNON.World)
        (d : World.Draws) (now : R) :
  exists g0,
    Game.new d now = Some g0
    /\ forall es es' : list Game.Event,
        exists g g',
          Game.run step g0 es = Some g
          /\ Game.run step g es' = Some g'
          /\ Hole.radius (World.hole (Game.world g))
             <= Hole.radius (World.hole (Game.world g')).
Proof.
  destruct (Game_new_founded d now) as (g0 & Hnew & Hs & Hp).
  exists g0. split; [exact Hnew|]. intros es es'.
  destruct (run_settled step es g0 Hs Hp) as (g & Hr & Hsg & Hpg & _).
  destruct (run_settled step es' g Hsg Hpg) as (g' & Hr' & _ & _ & Hk).
  exists g, g'. split; [exact Hr|]. split; [exact Hr'|].
  rewrite (kept_radius _ _ Hk). lra.
Qed.

(** C9.  The time step [animate] hands to [World.update] is the elapsed
    time in seconds capped at 0.1: it never exceeds 0.1, whatever the time
    since the last frame. *)
Theorem deltaTime_capped
        (step : R -> R -> nat -> CANNON.World -> CANNON.World)
        (g : Game.t) (currentTime : R) :
  Game.deltaTime g currentTime <= 1 / 10
  /\ Game.animate step g currentTime
     = (w ← World.update step (Game.world g) (Game.deltaTime g currentTime);
        Some (Game.mk w currentTime)).
Proof.
  split; [|reflexivity]. unfold Game.deltaTime. apply Rmin_r.
Qed.

(** C10.  Whatever hole the constructor builds and whatever calls of
    [update], [checkSwallow] and the key listeners follow, no call throws
    and the radius is still 1.5, as are the radius of the mask disk, the
    radii of the interior cylinder and the half-width of the opening of the
    ring. *)
Theorem radius_constant (sc : THREE.Scene) (pw : CANNON.World) :
  exists h0,
    Hole.new sc pw = Some h0
    /\ forall cs : list Hole.Call,
        exists h,
          Hole.calls h0 cs = Some h
          /\ Hole.radius h = 15 / 10
          /\ maskGeometry h = THREE.CircleGeometry (15 / 10) 32
          /\ interiorGeometry h
             = THREE.CylinderGeometry (15 / 10) (15 / 10) 5 32
          /\ ring_opening h (15 / 10).
Proof.
  destruct (Hole_new_founded sc pw) as (h0 & Hnew & Hs & Hp & _).
  exists h0. split; [exact Hnew|]. intros cs.
  destruct (calls_settled cs h0 Hs Hp) as (h & Hc & Hsh & Hph).
  exists h. split; [exact Hc|].
  pose proof (ring_placed_opening h Hph) as Ho.
  destruct Hsh as [_ Hr ? ? ? Hmg Hig _]. rewrite Hr in Ho. auto.
Qed.

(** * Further properties of the code *)

(** ** Keys *)

Lemma key_keydown (h : Hole.t) (c c' : string) :
  Hole.key (Hole.keydown c h) c' = if decide (c = c') then true else Hole.key h c'.
Proof.
  unfold Hole.key, Hole.keydown. simpl. rewrite lookup_insert.
  by destruct (decide (c = c')).
Qed.


(** The direction [handleInput] reads is right minus left, down minus up. *)
Lemma readInput_indicator (h : Hole.t) :
  Hole.readInput h
  = Vector2.mk (indicator (rightHeld h) - indicator (leftHeld h))
               (indicator (downHeld h) - indicator (upHeld h)).
Proof.
  unfold Hole.readInput, rightHeld, leftHeld, downHeld, upHeld.
  destruct (Hole.key h "ArrowUp" || Hole.key h "KeyW");
    destruct (Hole.key h "ArrowDown" || Hole.key h "KeyS");
    destruct (Hole.key h "ArrowLeft" || Hole.key h "KeyA");
    destruct (Hole.key h "ArrowRight" || Hole.key h "KeyD");
    unfold Vector2.zero, indicator; simpl; f_equal; lra.
Qed.



Lemma held_keydown (h : Hole.t) (c a b : string) :
  Hole.key (Hole.keydown c h) a || Hole.key (Hole.keydown c h) b
  = if decide (c = a) then true
    else if decide (c = b) then true
         else Hole.key h a || Hole.key h b.
Proof.
  rewrite !key_keydown.
  destruct (decide (c = a)), (decide (c = b)); try reflexivity.
  apply orb_true_r.
Qed.

(** X2.  The letter keys are aliases of the arrow keys: pressing W, S, A or
    D gives [handleInput] the direction that pressing the arrow does,
    whatever else is held. *)
Theorem wasd_like_arrows (h : Hole.t) :
  Hole.readInput (Hole.keydown "KeyW" h)
  = Hole.readInput (Hole.keydown "ArrowUp" h)
  /\ Hole.readInput (Hole.keydown "KeyS" h)
     = Hole.readInput (Hole.keydown "ArrowDown" h)
  /\ Hole.readInput (Hole.keydown "KeyA" h)
     = Hole.readInput (Hole.keydown "ArrowLeft" h)
  /\ Hole.readInput (Hole.keydown "KeyD" h)
     = Hole.readInput (Hole.keydown "ArrowRight" h).
Proof.
  rewrite !readInput_indicator.
  unfold upHeld, downHeld, leftHeld, rightHeld.
  rewrite !held_keydown.
  repeat split; reflexivity.
Qed.

(** X3.  Opposite keys held together cancel: when up is held exactly when
    down is, and left exactly when right is, [handleInput] reads no
    direction and the velocity is the one friction leaves, as with no key
    held. *)
Theorem opposite_keys_cancel (h : Hole.t) (dt : R) :
  upHeld h = downHeld h -> leftHeld h = rightHeld h ->
  Hole.readInput h = Vector2.zero
  /\ Hole.currentSpeed (Hole.handleInput h dt)
     = Hole.integrate Vector2.zero (Hole.currentSpeed h) dt.
Proof.
  intros Hv Hh.
  assert (Hz : Hole.readInput h = Vector2.zero).
  { rewrite readInput_indicator, Hv, Hh. unfold Vector2.zero.
    f_equal; lra. }
  split; [exact Hz|].
  rewrite currentSpeed_handleInput, Hz. reflexivity.
Qed.

Lemma opposite_keys_cancel_witness :
  Hole.readInput (Hole.keydown "KeyS" (Hole.keydown "ArrowUp" sample_hole))
  = Vector2.zero.
Proof.
  refine (proj1 (opposite_keys_cancel
                   (Hole.keydown "KeyS" (Hole.keydown "ArrowUp" sample_hole))
                   0 _ _)); reflexivity.
Defined.

(** ** Movement *)








Lemma position_handleInput (h : Hole.t) (dt : R) :
  Hole.position (Hole.handleInput h dt)
  = Vector3.mk
      (Vector3.x (Hole.position h)
       + Vector2.x (Hole.currentSpeed (Hole.handleInput h dt)) * dt)
      (Vector3.y (Hole.position h))
      (Vector3.z (Hole.position h)
       + Vector2.y (Hole.currentSpeed (Hole.handleInput h dt)) * dt).
Proof.
  unfold Hole.position, Hole.handleInput. simpl.
  by rewrite fn_lookup_insert.
Qed.

Lemma update_is_handleInput (h h' : Hole.t) (dt : R) :
  Hole.update h dt = Some h' ->
  Hole.position h' = Hole.position (Hole.handleInput h dt)
  /\ Hole.currentSpeed h' = Hole.currentSpeed (Hole.handleInput h dt)
  /\ Hole.keys h' = Hole.keys h.
Proof.
  unfold Hole.update, Hole.updatePhysicsHolePos. intros H.
  repeat (apply bind_Some in H as (? & _ & H)).
  injection H as <-. repeat split.
Qed.



Lemma integrate_rest (dt : R) :
  Hole.integrate Vector2.zero Vector2.zero dt = Vector2.zero.
Proof.
  destruct (Rlt_dec (Vector2.length Vector2.zero) (Hole.friction * dt))
    as [Hlt|Hge].
  - by apply integrate_stops.
  - unfold Hole.integrate. rewrite length_zero.
    destruct (Rgt_dec 0 0) as [?|_]; [lra|].
    rewrite length_zero.
    destruct (Rgt_dec 0 0) as [?|_]; [lra|].
    rewrite length_zero in Hge.
    destruct (Rlt_dec 0 (Hole.friction * dt)) as [?|_]; [contradiction|].
    assert (Hv : Vector2.addScaledVector Vector2.zero
                   (Vector2.negate (Vector2.normalize Vector2.zero))
                   (Hole.friction * dt) = Vector2.zero).
    { unfold Vector2.normalize. rewrite length_zero.
      destruct (Req_dec_T 0 0) as [_|?]; [|lra].
      unfold Vector2.addScaledVector, Vector2.negate, Vector2.divideScalar,
        Vector2.multiplyScalar, Vector2.zero. simpl. f_equal; lra. }
    rewrite Hv, length_zero. unfold Hole.maxSpeed.
    destruct (Rgt_dec 0 8); [lra|reflexivity].
Qed.

(** X6.  A hole at rest with no direction key held stays where it is and
    at rest through [update], whatever the time step. *)
Theorem rest_stays (h : Hole.t) (dt : R) :
  ring_built h -> no_direction h ->
  Hole.currentSpeed h = Vector2.zero ->
  exists h',
    Hole.update h dt = Some h'
    /\ Hole.position h' = Hole.position h
    /\ Hole.currentSpeed h' = Vector2.zero.
Proof.
  intros Hb Hn Hv. destruct (update_places h dt Hb) as (pw & Hu & _).
  eexists. split; [exact Hu|].
  destruct (update_is_handleInput _ _ _ Hu) as (-> & -> & _).
  assert (Hv' : Hole.currentSpeed (Hole.handleInput h dt) = Vector2.zero).
  { rewrite currentSpeed_handleInput, (readInput_no_direction h Hn), Hv.
    apply integrate_rest. }
  split; [|exact Hv'].
  rewrite position_handleInput, Hv'.
  destruct (Hole.position h) as [x y z]. simpl. f_equal; lra.
Qed.

Lemma sample_rest_built : ring_built sample_rest.
Proof. exact sample_ring_built. Qed.

Lemma rest_stays_witness :
  exists h',
    Hole.update sample_rest (-1) = Some h'
    /\ Hole.position h' = Hole.position sample_rest
    /\ Hole.currentSpeed h' = Vector2.zero.
Proof.
  apply rest_stays.
  - exact sample_rest_built.
  - exact sample_no_direction.
  - reflexivity.
Defined.












(** ** The frame driver *)

Lemma handle_lastTime
      (step : R -> R -> nat -> CANNON.World -> CANNON.World)
      (g g' : Game.t) (e : Game.Event) :
  Game.handle step g e = Some g' ->
  Game.lastTime g'
  = match e with
    | Game.AnimationFrame currentTime => currentTime
    | _ => Game.lastTime g
    end.
Proof.
  destruct e as [currentTime|code|code]; simpl.
  - unfold Game.animate. intros H.
    apply bind_Some in H as (w & _ & H). by injection H as <-.
  - by intros [= <-].
  - by intros [= <-].
Qed.

Lemma Game_new_lastTime (d : World.Draws) (now : R) (g : Game.t) :
  Game.new d now = Some g -> Game.lastTime g = now.
Proof.
  unfold Game.new. destruct (World.new THREE.empty d) as [w|]; simpl.
  - intros [= <-]. reflexivity.
  - discriminate.
Qed.

Lemma run_timeSteps
      (step : R -> R -> nat -> CANNON.World -> CANNON.World)
      (es : list Game.Event) (g : Game.t) :
  settled (World.hole (Game.world g)) ->
  ring_placed (World.hole (Game.world g)) ->
  exists g',
    Game.run step g es = Some g'
    /\ elapsed (timeSteps step g es)
       <= (Game.lastTime g' - Game.lastTime g) / 1000
    /\ Forall (fun dt => dt <= 1 / 10) (timeSteps step g es)
    /\ (clock_monotone (Game.lastTime g) es ->
        Forall (fun dt => 0 <= dt) (timeSteps step g es)).
Proof.
  revert g. induction es as [|e es IH]; intros g Hs Hp.
  - exists g. split; [reflexivity|]. unfold elapsed. simpl.
    split; [lra|]. split; [constructor|]. intros _. constructor.
  - destruct (handle_settled step g e Hs Hp) as (g1 & Hh & Hs1 & Hp1 & _).
    cbn [Game.run timeSteps clock_monotone]. rewrite Hh.
    destruct (IH g1 Hs1 Hp1) as (g' & Hr & Hsum & Hcap & Hpos).
    exists g'. split; [exact Hr|].
    pose proof (handle_lastTime step g g1 e Hh) as Hl. clear Hh.
    destruct e as [t|code|code]; cbn [app].
    + rewrite Hl in Hsum, Hpos. split; [|split].
      * change (elapsed (Game.deltaTime g t :: timeSteps step g1 es))
          with (Game.deltaTime g t + elapsed (timeSteps step g1 es)).
        pose proof (Rmin_l ((t - Game.lastTime g) / 1000) (1 / 10)) as Hd.
        fold (Game.deltaTime g t) in Hd. lra.
      * apply Forall_cons. split; [apply Rmin_r|exact Hcap].
      * intros [Ht Hm]. apply Forall_cons. split; [|by apply Hpos].
        unfold Game.deltaTime. apply Rmin_glb; lra.
    + rewrite Hl in Hsum, Hpos. auto.
    + rewrite Hl in Hsum, Hpos. auto.
Qed.


(** X10.  When the clock never runs backwards, every time step a frame
    hands to the world is between 0 and 0.1 seconds. *)
Theorem time_steps_in_range
        (step : R -> R -> nat -> CANNON.World -> CANNON.World)
        (d : World.Draws) (now : R) (es : list Game.Event) :
  clock_monotone now es ->
  exists g0,
    Game.new d now = Some g0
    /\ Forall (fun dt => 0 <= dt <= 1 / 10) (timeSteps step g0 es).
Proof.
  intros Hm. destruct (Game_new_founded d now) as (g0 & Hnew & Hs & Hp).
  exists g0. split; [exact Hnew|].
  destruct (run_timeSteps step es g0 Hs Hp) as (g & _ & _ & Hcap & Hpos).
  pose proof (Game_new_lastTime d now g0 Hnew) as Hl.
  rewrite Hl in Hpos. specialize (Hpos Hm).
  apply Forall_and. split; assumption.
Qed.

Lemma time_steps_in_range_witness :
  exists g0,
    Game.new sample_draws 0 = Some g0
    /\ Forall (fun dt => 0 <= dt <= 1 / 10)
              (timeSteps still g0
                 [Game.AnimationFrame 16; Game.KeyDown "KeyW";
                  Game.AnimationFrame 33]).
Proof.
  apply time_steps_in_range. simpl. repeat split; lra.
Defined.

(** ** The loop of [World.update] *)

Lemma splice_out_middle (i : nat) (pre l : list nat) :
  i ∉ pre -> splice_out i (pre ++ i :: l) = pre ++ l.
Proof.
  induction pre as [|j pre IH]; intros Hi; simpl.
  - destruct (decide (i = i)); [reflexivity|congruence].
  - apply not_elem_of_cons in Hi as [Hij Hi].
    destruct (decide (i = j)); [contradiction|]. f_equal. by apply IH.
Qed.

Lemma falls_in_ext (h h' : Hole.t) (p : Vector3.t) :
  Hole.position h' = Hole.position h -> Hole.radius h' = Hole.radius h ->
  falls_in h' p <-> falls_in h p.
Proof. unfold falls_in. by intros -> ->. Qed.

(** Once the mesh is where its body is, [checkSwallow] asks whether the
    body falls in. *)
Lemma swallows_synced (h : Hole.t) (m : nat) (p : Vector3.t) :
  m <> Hole.mesh h ->
  swallows (Hole.with_scene (THREE.set_position m p (Hole.scene h)) h) m
  <-> falls_in h p.
Proof.
  intros Hne.
  unfold swallows, falls_in, horizontalDistance, groundDistance,
    Hole.position.
  simpl. rewrite fn_lookup_insert, fn_lookup_insert_ne by assumption.
  reflexivity.
Qed.

Lemma sync_loop_exact (h0 : Hole.t) (objs : list (nat * nat)) :
  forall (h : Hole.t) (pre : list nat),
    Hole.mesh h = Hole.mesh h0 ->
    Hole.position h = Hole.position h0 ->
    Hole.radius h = Hole.radius h0 ->
    CANNON.position (Hole.physicsWorld h)
    = CANNON.position (Hole.physicsWorld h0) ->
    THREE.children (Hole.scene h) = pre ++ objs.*1 ->
    NoDup (pre ++ objs.*1) ->
    Hole.mesh h0 ∉ objs.*1 ->
    let P := fun obj : nat * nat =>
               ~ falls_in h0 (CANNON.position (Hole.physicsWorld h0) obj.2) in
    let h' := fold_left World.syncAndCheck objs h in
    THREE.children (Hole.scene h') = pre ++ (filter P objs).*1
    /\ Hole.position h' = Hole.position h0
    /\ CANNON.position (Hole.physicsWorld h')
       = CANNON.position (Hole.physicsWorld h0)
    /\ (forall m b,
          (m, b) ∈ objs ->
          THREE.position (THREE.objects (Hole.scene h') m)
          = CANNON.position (Hole.physicsWorld h0) b)
    /\ (forall o,
          o ∉ objs.*1 ->
          THREE.objects (Hole.scene h') o = THREE.objects (Hole.scene h) o)
    /\ (forall preB,
          CANNON.bodies (Hole.physicsWorld h) = preB ++ objs.*2 ->
          NoDup (preB ++ objs.*2) ->
          CANNON.bodies (Hole.physicsWorld h') = preB ++ (filter P objs).*2).
Proof.
  induction objs as [|[m b] objs IH]; intros h pre Hmesh Hpos Hrad Hbp Hch Hnd
    Hhole P h'.
  - unfold h'. simpl. rewrite ?app_nil_r in *.
    repeat split; try assumption; try reflexivity.
    + intros m b Hin. by apply elem_of_nil in Hin.
    + intros preB HBs _. exact HBs.
  - simpl in Hch, Hnd, Hhole.
    apply not_elem_of_cons in Hhole as [Hm0 Hhole].
    assert (Hm : m <> Hole.mesh h) by congruence.
    set (p := CANNON.position (Hole.physicsWorld h) b).
    set (h1 := Hole.with_scene (THREE.set_position m p (Hole.scene h)) h).
    assert (Hsw : swallows h1 m
                  <-> falls_in h0 (CANNON.position (Hole.physicsWorld h0) b)).
    { unfold h1. rewrite swallows_synced by assumption.
      unfold p. rewrite Hbp. by apply falls_in_ext. }
    assert (Hpos1 : Hole.position h1 = Hole.position h0).
    { rewrite <- Hpos. unfold h1, Hole.position. simpl.
      by rewrite fn_lookup_insert_ne. }
    assert (Hm_pre : (m ∉ pre) /\ (m ∉ objs.*1) /\ NoDup (pre ++ objs.*1)).
    { apply NoDup_app in Hnd as (Hpre & Hdisj & Hrest).
      apply NoDup_cons in Hrest as [Hm_rest Hrest].
      split; [|split; [exact Hm_rest|]].
      - intros Hin. apply (Hdisj m Hin). apply elem_of_cons. by left.
      - apply NoDup_app. split; [exact Hpre|]. split; [|exact Hrest].
        intros x Hx Hx'. apply (Hdisj x Hx). apply elem_of_cons. by right. }
    destruct Hm_pre as (Hm_pre & Hm_rest & Hnd').
    assert (Hheap1 : forall o, o <> m ->
               THREE.objects (Hole.scene h1) o = THREE.objects (Hole.scene h) o).
    { intros o Ho. unfold h1. simpl. by rewrite fn_lookup_insert_ne. }
    assert (Hp1 : THREE.position (THREE.objects (Hole.scene h1) m)
                  = CANNON.position (Hole.physicsWorld h0) b).
    { unfold h1. simpl. rewrite fn_lookup_insert. simpl. unfold p.
      by rewrite Hbp. }
    unfold h'.
    change (fold_left World.syncAndCheck ((m, b) :: objs) h)
      with (fold_left World.syncAndCheck objs (Hole.checkSwallow h1 m b)).
    change (((m, b) :: objs).*1) with (m :: objs.*1) in *.
    change (((m, b) :: objs).*2) with (b :: objs.*2) in *.
    destruct (decide (falls_in h0 (CANNON.position (Hole.physicsWorld h0) b)))
      as [Hin|Hout].
    + rewrite (checkSwallow_yes h1 m b) by (apply Hsw, Hin).
      rewrite filter_cons_False by (unfold P; simpl; tauto).
      destruct (IH (removed h1 m b) pre) as (Hc & Hp' & Hb' & Hs & Ho & HB);
        try assumption.
      { simpl. rewrite Hch. by apply splice_out_middle. }
      split; [exact Hc|]. split; [exact Hp'|]. split; [exact Hb'|].
      split; [|split].
      * intros m' b' Hin'. apply elem_of_cons in Hin' as [[= -> ->]|Hin'].
        -- rewrite (Ho m Hm_rest). exact Hp1.
        -- by apply Hs.
      * intros o Hno. apply not_elem_of_cons in Hno as [Hom Hno].
        rewrite (Ho o Hno). by apply Hheap1.
      * intros preB HBs HBnd. apply HB.
        -- simpl. simpl in HBs. rewrite HBs. apply splice_out_middle.
           apply NoDup_app in HBnd as (_ & Hdisj & _).
           intros Hb. apply (Hdisj b Hb). apply elem_of_cons. by left.
        -- simpl in HBnd. apply NoDup_app in HBnd as (HpreB & Hdisj & Hrest).
           apply NoDup_cons in Hrest as [_ Hrest].
           apply NoDup_app. split; [exact HpreB|]. split; [|exact Hrest].
           intros x Hx Hx'. apply (Hdisj x Hx). apply elem_of_cons. by right.
    + rewrite (checkSwallow_no h1 m b) by (rewrite Hsw; exact Hout).
      rewrite filter_cons_True by (unfold P; simpl; exact Hout).
      destruct (IH h1 (pre ++ [m])) as (Hc & Hp' & Hb' & Hs & Ho & HB);
        try assumption.
      { simpl. rewrite Hch, <- app_assoc. reflexivity. }
      { rewrite <- app_assoc. exact Hnd. }
      rewrite <- app_assoc in Hc.
      split; [exact Hc|]. split; [exact Hp'|]. split; [exact Hb'|].
      split; [|split].
      * intros m' b' Hin'. apply elem_of_cons in Hin' as [[= -> ->]|Hin'].
        -- rewrite (Ho m Hm_rest). exact Hp1.
        -- by apply Hs.
      * intros o Hno. apply not_elem_of_cons in Hno as [Hom Hno].
        rewrite (Ho o Hno). by apply Hheap1.
      * intros preB HBs HBnd. simpl.
        specialize (HB (preB ++ [b])). rewrite <- !app_assoc in HB.
        apply HB; [exact HBs|exact HBnd].
Qed.

Lemma filter_agree {A : Type} (P Q : A -> Prop)
      `{!forall x, Decision (P x)} `{!forall x, Decision (Q x)} (l : list A) :
  (forall x, x ∈ l -> P x <-> Q x) -> filter P l = filter Q l.
Proof.
  induction l as [|x l IH]; intros Hagree; [reflexivity|].
  assert (Hx : P x <-> Q x) by (apply Hagree, elem_of_cons; by left).
  assert (Hl : filter P l = filter Q l).
  { apply IH. intros y Hy. apply Hagree, elem_of_cons. by right. }
  rewrite !filter_cons, Hl.
  destruct (decide (P x)), (decide (Q x)); tauto.
Qed.

Lemma fst_determines {A B : Type} (l : list (A * B)) (x y : A * B) :
  NoDup l.*1 -> x ∈ l -> y ∈ l -> x.1 = y.1 -> x = y.
Proof.
  induction l as [|z l IH]; intros Hnd Hx Hy Heq; [by apply elem_of_nil in Hx|].
  simpl in Hnd. apply NoDup_cons in Hnd as [Hz Hnd].
  apply elem_of_cons in Hx as [->|Hx]; apply elem_of_cons in Hy as [->|Hy].
  - reflexivity.
  - exfalso. apply Hz. rewrite Heq. by apply list_elem_of_fmap_2.
  - exfalso. apply Hz. rewrite <- Heq. by apply list_elem_of_fmap_2.
  - by apply IH.
Qed.

Lemma sublist_map {A B : Type} (f : A -> B) (l k : list A) :
  l `sublist_of` k -> (f <$> l) `sublist_of` (f <$> k).
Proof. induction 1; simpl; by constructor. Qed.

(** The objects whose mesh is still in the scene after the loop are those
    a predicate [P] keeps, when the scene lists [pre] and then the meshes
    [P] keeps. *)
Lemma filter_parent (P : nat * nat -> Prop) `{!forall x, Decision (P x)}
      (sc : THREE.Scene) (pre : list nat) (objs : list (nat * nat)) :
  NoDup (pre ++ objs.*1) ->
  THREE.children sc = pre ++ (filter P objs).*1 ->
  filter (fun obj => THREE.parent obj.1 sc) objs = filter P objs.
Proof.
  intros Hnd Hch. apply filter_agree. intros obj Hobj.
  apply NoDup_app in Hnd as (_ & Hdisj & Hnd).
  unfold THREE.parent. rewrite Hch. split.
  - intros Hin. apply Is_true_true, bool_decide_eq_true in Hin.
    apply elem_of_app in Hin as [Hin|Hin].
    + exfalso. apply (Hdisj _ Hin). by apply list_elem_of_fmap_2.
    + apply list_elem_of_fmap in Hin as (obj' & Heq & Hin).
      apply list_elem_of_filter in Hin as [HP Hin].
      by rewrite (fst_determines objs obj obj' Hnd Hobj Hin Heq).
  - intros HP. apply Is_true_true, bool_decide_eq_true.
    apply elem_of_app. right. apply list_elem_of_fmap_2.
    apply list_elem_of_filter. by split.
Qed.

Lemma World_update_exact
      (step : R -> R -> nat -> CANNON.World -> CANNON.World)
      (base : list nat) (w : World.t) (dt : R) :
  ring_built (World.hole w) -> tidy base w ->
  exists w',
    World.update step w dt = Some w'
    /\ World.objects w' = survivors step w dt
    /\ tidy base w'
    /\ synced w'
    /\ kept (World.hole w) (World.hole w')
    /\ (CANNON.bodies (Hole.physicsWorld (World.stepped step w dt))
        = Hole.groundBodies (World.hole w) ++ objectBodies w ->
        NoDup (Hole.groundBodies (World.hole w) ++ objectBodies w) ->
        CANNON.bodies (World.physicsWorld w')
        = Hole.groundBodies (World.hole w') ++ objectBodies w').
Proof.
  intros Hb [Hch Hnd Hhole Hring].
  unfold World.update.
  set (h0 := World.stepped step w dt).
  set (h2 := fold_left World.syncAndCheck (World.objects w) h0).
  rewrite Hch in Hnd. unfold meshes in *.
  assert (Hm0 : Hole.mesh h0 ∉ (World.objects w).*1).
  { apply NoDup_app in Hnd as (_ & Hdisj & _). by apply Hdisj. }
  destruct (sync_loop_exact h0 (World.objects w) h0 base)
    as (Hc2 & Hp2 & Hbp2 & Hs2 & Ho2 & HB2); try reflexivity; try assumption.
  fold h2 in Hc2, Hp2, Hbp2, Hs2, Ho2, HB2.
  change (filter _ (World.objects w)) with (survivors step w dt)
    in Hc2, HB2.
  rewrite (filter_parent _ (Hole.scene h2) base (World.objects w) Hnd Hc2).
  change (filter _ (World.objects w)) with (survivors step w dt).
  assert (Hk2 : kept (World.hole w) h2).
  { eapply kept_trans; [|apply kept_sync_loop]. apply kept_with_physicsWorld. }
  assert (Hb2 : ring_built h2) by (eapply ring_built_kept; eassumption).
  destruct (ring_built_inv _ Hb2) as (b0 & b1 & b2 & b3 & Hg & _).
  unfold Hole.update.
  set (h3 := Hole.handleInput h2 dt).
  assert (Hg3 : Hole.groundBodies h3 = [b0; b1; b2; b3]) by exact Hg.
  rewrite (updatePhysicsHolePos_four h3 _ _ _ _ Hg3). simpl.
  eexists. split; [reflexivity|]. simpl.
  assert (Hsub : survivors step w dt `sublist_of` World.objects w)
    by apply sublist_filter.
  split; [reflexivity|]. split; [|split; [|split]].
  - constructor; unfold World.scene, meshes, objectBodies; simpl.
    + exact Hc2.
    + rewrite Hc2. eapply sublist_NoDup; [exact Hnd|].
      apply sublist_app; [reflexivity|]. by apply sublist_map.
    + rewrite (kept_mesh _ _ Hk2). exact Hhole.
    + rewrite (kept_groundBodies _ _ Hk2). intros b Hbr Hbo.
      apply (Hring b Hbr). unfold objectBodies.
      eapply elem_of_sublist; [exact Hbo|]. by apply sublist_map.
  - intros m b Hin. unfold World.scene, World.physicsWorld. simpl.
    assert (Hin' : (m, b) ∈ World.objects w)
      by (eapply elem_of_sublist; eassumption).
    assert (Hm : m <> Hole.mesh h2).
    { intros ->. apply Hm0.
      apply (list_elem_of_fmap_2 fst) in Hin'. simpl in Hin'.
      rewrite (kept_mesh _ _ Hk2) in Hin'. exact Hin'. }
    rewrite fn_lookup_insert_ne by congruence.
    rewrite (Hs2 m b Hin').
    assert (Hbr : b ∉ [b0; b1; b2; b3]).
    { rewrite <- Hg, (kept_groundBodies _ _ Hk2). intros Hbr.
      apply (Hring b Hbr). by apply (list_elem_of_fmap_2 snd) in Hin'. }
    rewrite !not_elem_of_cons in Hbr. destruct Hbr as (? & ? & ? & ? & _).
    rewrite !fn_lookup_insert_ne by congruence.
    by rewrite Hbp2.
  - eapply kept_trans; [exact Hk2|].
    eapply kept_trans; [apply kept_handleInput|].
    apply kept_with_physicsWorld.
  - intros HBs HBnd. unfold World.physicsWorld, objectBodies. simpl.
    change (Hole.groundBodies h2) with (Hole.groundBodies h3) in Hg.
    rewrite (kept_groundBodies _ _ Hk2).
    apply HB2; assumption.
Qed.

(** ** The constructor of the world *)

Lemma add_fresh (o : nat) (sc : THREE.Scene) :
  neat_scene sc -> (THREE.object3DId sc <= o)%nat ->
  THREE.children (THREE.add o sc) = THREE.children sc ++ [o].
Proof.
  intros [_ Hlt] Ho. simpl. rewrite splice_out_absent; [reflexivity|].
  intros Hin. apply (proj1 (Forall_forall _ _) Hlt) in Hin. lia.
Qed.

Lemma neat_scene_grow (sc sc' : THREE.Scene) (o : nat) :
  neat_scene sc -> (THREE.object3DId sc <= o)%nat ->
  THREE.children sc' = THREE.children sc ++ [o] ->
  (o < THREE.object3DId sc')%nat ->
  neat_scene sc'.
Proof.
  intros [Hnd Hlt] Ho Hch Ho'. unfold neat_scene. rewrite Hch. split.
  - apply NoDup_app. split; [exact Hnd|]. split; [|apply NoDup_singleton].
    intros x Hx Hx'. apply list_elem_of_singleton in Hx' as ->.
    apply (proj1 (Forall_forall _ _) Hlt) in Hx. lia.
  - apply Forall_app. split; [|by apply Forall_singleton].
    eapply Forall_impl; [exact Hlt|]. simpl. intros x Hx. lia.
Qed.

Lemma addBody_absent (b : nat) (pw : CANNON.World) :
  b ∉ CANNON.bodies pw ->
  CANNON.bodies (CANNON.addBody b pw) = CANNON.bodies pw ++ [b].
Proof.
  intros Hb. unfold CANNON.addBody.
  destruct (decide (b ∈ CANNON.bodies pw)); [contradiction|reflexivity].
Qed.

Lemma counter_absent (pw : CANNON.World) :
  neat_world pw -> CANNON.idCounter pw ∉ CANNON.bodies pw.
Proof.
  intros [_ Hlt] Hin. apply (proj1 (Forall_forall _ _) Hlt) in Hin. lia.
Qed.

Lemma neat_world_grow (pw pw' : CANNON.World) (b : nat) :
  neat_world pw -> (CANNON.idCounter pw <= b)%nat ->
  CANNON.bodies pw' = CANNON.bodies pw ++ [b] ->
  (b < CANNON.idCounter pw')%nat ->
  neat_world pw'.
Proof.
  intros [Hnd Hlt] Hb Hbs Hb'. unfold neat_world. rewrite Hbs. split.
  - apply NoDup_app. split; [exact Hnd|]. split; [|apply NoDup_singleton].
    intros x Hx Hx'. apply list_elem_of_singleton in Hx' as ->.
    apply (proj1 (Forall_forall _ _) Hlt) in Hx. lia.
  - apply Forall_app. split; [|by apply Forall_singleton].
    eapply Forall_impl; [exact Hlt|]. simpl. intros x Hx. lia.
Qed.

Lemma allocated_extends (h h' : Hole.t) :
  extends h h' -> allocated h -> allocated h'.
Proof.
  intros [Em Ek Ei Eg Eb _ _ _ _ E3 Ec] [Am Ak Ai Ag Ab].
  constructor; rewrite ?Em, ?Ek, ?Ei, ?Eg, ?Eb; try lia.
  eapply Forall_impl; [exact Ab|]. simpl. intros b Hb. lia.
Qed.

(** What a turn that spawns adds: one mesh at the end of the scene, one
    body at the end of the physics world, one pair at the end of the
    list. *)
Lemma spawn_adds (pos : Vector3.t) (w : World.t) :
  neat_scene (World.scene w) -> neat_world (World.physicsWorld w) ->
  let n := THREE.object3DId (World.scene w) in
  let k := CANNON.idCounter (World.physicsWorld w) in
  let w' := spawn pos w in
  World.objects w' = World.objects w ++ [(n, k)]
  /\ THREE.children (World.scene w') = THREE.children (World.scene w) ++ [n]
  /\ THREE.object3DId (World.scene w') = S n
  /\ CANNON.bodies (World.physicsWorld w')
     = CANNON.bodies (World.physicsWorld w) ++ [k]
  /\ CANNON.idCounter (World.physicsWorld w') = S k
  /\ THREE.position (THREE.objects (World.scene w') n) = pos
  /\ CANNON.position (World.physicsWorld w') k
     = Vector3.mk (Vector3.x pos) 5 (Vector3.z pos).
Proof.
  intros Hsc Hpw n k w'.
  unfold w', spawn, ObjectGenerator.createMesh, World.addPhysicsObject,
    World.scene, World.physicsWorld in *.
  simpl. fold n k.
  split; [reflexivity|]. split.
  { rewrite splice_out_absent; [reflexivity|].
    intros Hin. apply (proj1 (Forall_forall _ _) (proj2 Hsc)) in Hin.
    fold n in Hin. lia. }
  split; [reflexivity|]. split.
  { rewrite addBody_absent; [reflexivity|]. simpl. by apply counter_absent. }
  split; [by rewrite idCounter_addBody|]. split.
  { by rewrite fn_lookup_insert. }
  rewrite position_addBody. simpl. by rewrite !fn_lookup_insert.
Qed.

Lemma spawned_extends (w w' : World.t) (obj : nat * nat) :
  extends (World.hole w) (World.hole w') ->
  (obj.1 < THREE.object3DId (World.scene w))%nat ->
  (obj.2 < CANNON.idCounter (World.physicsWorld w))%nat ->
  spawned w obj -> spawned w' obj.
Proof.
  intros He Hm Hb. unfold spawned, World.scene, World.physicsWorld.
  by rewrite (ext_objects _ _ He _ Hm), (ext_positions _ _ He _ Hb).
Qed.

Lemma spawn_raised (base : list nat) (pos : Vector3.t) (w : World.t) :
  raised base w ->
  Vector3.y pos = 0 -> 2 <= Vector3.length pos ->
  raised base (spawn pos w).
Proof.
  intros [Hsc Hpw Ha Hch Hbs Hhole Horig Hsp] Hy Hfar.
  destruct (spawn_adds pos w Hsc Hpw)
    as (Hobjs & Hch' & Hid' & Hbs' & Hk' & Hp' & Hq').
  assert (He : extends (World.hole w) (World.hole (spawn pos w)))
    by apply extends_spawn.
  set (n := THREE.object3DId (World.scene w)) in *.
  set (k := CANNON.idCounter (World.physicsWorld w)) in *.
  constructor.
  - eapply (neat_scene_grow _ _ n); [exact Hsc|reflexivity|exact Hch'|].
    rewrite Hid'. lia.
  - eapply (neat_world_grow _ _ k); [exact Hpw|reflexivity|exact Hbs'|].
    rewrite Hk'. lia.
  - eapply allocated_extends; eassumption.
  - rewrite Hch', Hch. unfold meshes. rewrite Hobjs, fmap_app, app_assoc.
    reflexivity.
  - rewrite Hbs', Hbs, (ext_groundBodies _ _ He). unfold objectBodies.
    rewrite Hobjs, fmap_app, app_assoc. reflexivity.
  - rewrite (ext_mesh _ _ He). exact Hhole.
  - rewrite <- Horig. unfold Hole.position.
    rewrite (ext_mesh _ _ He).
    by rewrite (ext_objects _ _ He _ (allocated_mesh _ Ha)).
  - rewrite Hobjs. apply Forall_app. split.
    + apply Forall_forall. intros obj Hobj.
      apply (spawned_extends w); [exact He| | |].
      * apply (proj1 (Forall_forall _ _) (proj2 Hsc)). rewrite Hch.
        apply elem_of_app. right. by apply list_elem_of_fmap_2.
      * apply (proj1 (Forall_forall _ _) (proj2 Hpw)). rewrite Hbs.
        apply elem_of_app. right. by apply list_elem_of_fmap_2.
      * by apply (proj1 (Forall_forall _ _) Hsp).
    + apply Forall_singleton. unfold spawned. cbn [fst snd].
      rewrite Hp', Hq'. split; [exact Hy|]. split; [reflexivity|].
      unfold groundDistance, Vector3.zero. cbn [Vector3.x Vector3.z].
      unfold Vector3.length in Hfar. rewrite Hy in Hfar.
      replace ((Vector3.x pos - 0) * (Vector3.x pos - 0)
               + (Vector3.z pos - 0) * (Vector3.z pos - 0))
        with (Vector3.x pos * Vector3.x pos + 0 * 0
              + Vector3.z pos * Vector3.z pos) by ring.
      exact Hfar.
Qed.

Lemma decorate_raised (base : list nat) (spread clearance : R)
      (draws : list (R * R)) (w : World.t) :
  2 <= clearance -> raised base w ->
  raised base (World.decorate spread clearance draws w).
Proof.
  intros Hc. unfold World.decorate. revert w.
  induction draws as [|draw draws IH]; intros w Hr; simpl; [exact Hr|].
  apply IH.
  destruct (Rlt_dec (Vector3.length (World.spawnPosition spread draw))
                    clearance) as [_|Hfar]; [exact Hr|].
  apply (spawn_raised base (World.spawnPosition spread draw) w Hr).
  - reflexivity.
  - lra.
Qed.

Lemma addDecorations_raised (base : list nat) (d : World.Draws)
      (w : World.t) :
  raised base w -> raised base (World.addDecorations d w).
Proof.
  intros Hr. unfold World.addDecorations.
  repeat (apply decorate_raised; [lra|]). exact Hr.
Qed.

Lemma addGroundBody_registers (h : Hole.t) :
  neat_world (Hole.physicsWorld h) ->
  CANNON.bodies (Hole.physicsWorld (Hole.addGroundBody h))
  = CANNON.bodies (Hole.physicsWorld h)
    ++ [CANNON.idCounter (Hole.physicsWorld h)]
  /\ neat_world (Hole.physicsWorld (Hole.addGroundBody h)).
Proof.
  intros Hpw.
  assert (Hbs : CANNON.bodies (Hole.physicsWorld (Hole.addGroundBody h))
                = CANNON.bodies (Hole.physicsWorld h)
                  ++ [CANNON.idCounter (Hole.physicsWorld h)]).
  { unfold Hole.addGroundBody. simpl.
    rewrite addBody_absent; [reflexivity|]. simpl. by apply counter_absent. }
  split; [exact Hbs|].
  eapply neat_world_grow; [exact Hpw|reflexivity|exact Hbs|].
  rewrite addGroundBody_idCounter. lia.
Qed.

Lemma four_ground_bodies_registered (h : Hole.t) :
  Hole.groundBodies h = [] ->
  neat_world (Hole.physicsWorld h) ->
  let h4 := Nat.iter 4 Hole.addGroundBody h in
  CANNON.bodies (Hole.physicsWorld h4)
  = CANNON.bodies (Hole.physicsWorld h) ++ Hole.groundBodies h4
  /\ neat_world (Hole.physicsWorld h4).
Proof.
  intros Hg Hpw h4. unfold h4.
  destruct (four_ground_bodies h Hg) as (-> & _).
  simpl Nat.iter.
  destruct (addGroundBody_registers h Hpw) as (Hb1 & Hn1).
  destruct (addGroundBody_registers _ Hn1) as (Hb2 & Hn2).
  destruct (addGroundBody_registers _ Hn2) as (Hb3 & Hn3).
  destruct (addGroundBody_registers _ Hn3) as (Hb4 & Hn4).
  split; [|exact Hn4].
  rewrite Hb4, Hb3, Hb2, Hb1, !addGroundBody_idCounter, <- !app_assoc.
  reflexivity.
Qed.

(** [setupVisuals] leaves the objects created before it as they are, adds
    the ground to the scene and creates three objects. *)
Lemma setupVisuals_keeps (h : Hole.t) (i : nat) :
  (i < THREE.object3DId (Hole.scene h))%nat ->
  THREE.objects (Hole.scene (Hole.setupVisuals h)) i
  = THREE.objects (Hole.scene h) i.
Proof.
  intros Hi. destruct h as [[ch objs k] pw m hm hi hg gb r v ks].
  simpl in Hi. unfold Hole.setupVisuals. simpl.
  unfold insert, fn_insert.
  repeat (destruct (decide (_ = i)) as [?|_]; [lia|]). reflexivity.
Qed.

Lemma setupVisuals_scene (h : Hole.t) :
  let k := THREE.object3DId (Hole.scene h) in
  THREE.children (Hole.scene (Hole.setupVisuals h))
  = splice_out k (THREE.children (Hole.scene h)) ++ [k]
  /\ THREE.object3DId (Hole.scene (Hole.setupVisuals h)) = S (S (S k))
  /\ Hole.mesh (Hole.setupVisuals h) = Hole.mesh h
  /\ Hole.physicsWorld (Hole.setupVisuals h) = Hole.physicsWorld h
  /\ Hole.groundBodies (Hole.setupVisuals h) = Hole.groundBodies h.
Proof. destruct h as [[ch objs k] pw m hm hi hg gb r v ks]. by repeat split. Qed.

Lemma placed_world_registry (h : Hole.t) (b0 b1 b2 b3 : nat) :
  CANNON.bodies (placed_world h b0 b1 b2 b3)
  = CANNON.bodies (Hole.physicsWorld h)
  /\ CANNON.idCounter (placed_world h b0 b1 b2 b3)
     = CANNON.idCounter (Hole.physicsWorld h).
Proof. split; reflexivity. Qed.

Lemma with_physicsWorld_scene (pw : CANNON.World) (h : Hole.t) :
  Hole.scene (Hole.with_physicsWorld pw h) = Hole.scene h.
Proof. reflexivity. Qed.

Lemma with_physicsWorld_mesh (pw : CANNON.World) (h : Hole.t) :
  Hole.mesh (Hole.with_physicsWorld pw h) = Hole.mesh h.
Proof. reflexivity. Qed.

Lemma with_physicsWorld_groundBodies (pw : CANNON.World) (h : Hole.t) :
  Hole.groundBodies (Hole.with_physicsWorld pw h) = Hole.groundBodies h.
Proof. reflexivity. Qed.

Lemma with_physicsWorld_physicsWorld (pw : CANNON.World) (h : Hole.t) :
  Hole.physicsWorld (Hole.with_physicsWorld pw h) = pw.
Proof. reflexivity. Qed.

Lemma Hole_new_unfold (sc : THREE.Scene) (pw : CANNON.World) :
  Hole.new sc pw
  = Hole.updatePhysicsHolePos
      (Nat.iter 4 Hole.addGroundBody
         (Hole.setupVisuals
            (Hole.mk (THREE.add (THREE.object3DId sc)
                                (THREE.create THREE.NoGeometry sc).2)
                     pw (THREE.object3DId sc) 0 0 0 [] (15 / 10)
                     Vector2.zero ∅))).
Proof. reflexivity. Qed.

(** What the constructor of the hole adds to a neat scene and a neat
    physics world: its group and the ground at the end of the scene, its
    four bodies at the end of the world; the hole starts at the origin. *)
Lemma Hole_new_raised (sc : THREE.Scene) (pw : CANNON.World) :
  neat_scene sc -> neat_world pw ->
  exists h,
    Hole.new sc pw = Some h
    /\ Hole.mesh h = THREE.object3DId sc
    /\ THREE.children (Hole.scene h)
       = THREE.children sc
         ++ [THREE.object3DId sc; S (THREE.object3DId sc)]
    /\ neat_scene (Hole.scene h)
    /\ CANNON.bodies (Hole.physicsWorld h)
       = CANNON.bodies pw ++ Hole.groundBodies h
    /\ neat_world (Hole.physicsWorld h)
    /\ Hole.position h = Vector3.zero.
Proof.
  intros Hsc Hpw. rewrite Hole_new_unfold.
  set (n := THREE.object3DId sc).
  remember (Hole.mk (THREE.add n (THREE.create THREE.NoGeometry sc).2) pw n
                    0 0 0 [] (15 / 10) Vector2.zero ∅) as h0 eqn:Eh0.
  assert (Hn : n ∉ THREE.children sc).
  { intros Hin. apply (proj1 (Forall_forall _ _) (proj2 Hsc)) in Hin.
    fold n in Hin. lia. }
  assert (Hn' : S n ∉ THREE.children sc ++ [n]).
  { intros Hin. apply elem_of_app in Hin as [Hin|Hin].
    - apply (proj1 (Forall_forall _ _) (proj2 Hsc)) in Hin.
      fold n in Hin. lia.
    - apply list_elem_of_singleton in Hin. lia. }
  assert (H0 : THREE.children (Hole.scene h0) = THREE.children sc ++ [n]
               /\ THREE.object3DId (Hole.scene h0) = S n
               /\ Hole.mesh h0 = n
               /\ Hole.physicsWorld h0 = pw
               /\ Hole.groundBodies h0 = []
               /\ THREE.position (THREE.objects (Hole.scene h0) n)
                  = Vector3.zero).
  { rewrite Eh0. simpl. rewrite (splice_out_absent n) by assumption.
    rewrite fn_lookup_insert. by repeat split. }
  clear Eh0. destruct H0 as (Hc0 & Hi0 & Hm0 & Hp0 & Hg0 & Hz0).
  destruct (setupVisuals_scene h0) as (Hcv & Hiv & Hmv & Hpv & Hgv).
  pose proof (setupVisuals_keeps h0 n) as Hkv.
  remember (Hole.setupVisuals h0) as hv eqn:Ehv. clear Ehv.
  rewrite Hi0, Hc0 in Hcv. rewrite (splice_out_absent (S n)) in Hcv
    by assumption.
  rewrite <- app_assoc in Hcv. simpl in Hcv.
  rewrite Hi0 in Hiv. rewrite Hm0 in Hmv. rewrite Hp0 in Hpv.
  rewrite Hg0 in Hgv. rewrite Hi0 in Hkv. specialize (Hkv ltac:(lia)).
  rewrite <- Hkv in Hz0. clear Hc0 Hi0 Hm0 Hp0 Hg0 Hkv. clear h0.
  destruct (four_ground_bodies hv Hgv) as (Hg & Hid & Hscn & Hm & _).
  destruct (four_ground_bodies_registered hv Hgv)
    as (Hbs & Hpw4); [by rewrite Hpv|].
  remember (Nat.iter 4 Hole.addGroundBody hv) as h4 eqn:Eh4. clear Eh4.
  rewrite (updatePhysicsHolePos_four h4 _ _ _ _ Hg).
  eexists. split; [reflexivity|].
  unfold Hole.position.
  rewrite !with_physicsWorld_scene, !with_physicsWorld_mesh,
    !with_physicsWorld_groundBodies, !with_physicsWorld_physicsWorld.
  rewrite Hscn, Hm, Hmv, Hcv, Hz0.
  split; [reflexivity|]. split; [reflexivity|].
  split; [|split; [|split; [|reflexivity]]].
  - unfold neat_scene. rewrite Hcv, Hiv.
    destruct Hsc as [Hnd Hlt]. split.
    + rewrite (app_assoc _ [n] [S n]).
      apply NoDup_app. split; [|split; [|apply NoDup_singleton]].
      * apply NoDup_app. split; [exact Hnd|].
        split; [|apply NoDup_singleton].
        intros x Hx Hx'. apply list_elem_of_singleton in Hx' as ->. auto.
      * intros x Hx Hx'. apply list_elem_of_singleton in Hx' as ->. auto.
    + apply Forall_app. split.
      * eapply Forall_impl; [exact Hlt|]. simpl. fold n. intros x Hx. lia.
      * repeat (apply Forall_cons; split; [lia|]). apply Forall_nil_2.
  - rewrite (proj1 (placed_world_registry h4 _ _ _ _)).
    rewrite Hpv in Hbs. exact Hbs.
  - unfold neat_world.
    rewrite (proj1 (placed_world_registry h4 _ _ _ _)),
      (proj2 (placed_world_registry h4 _ _ _ _)).
    exact Hpw4.
Qed.

Lemma neat_empty_world : neat_world CANNON.empty.
Proof. split; [apply NoDup_nil_2|apply Forall_nil_2]. Qed.

Lemma neat_empty_scene : neat_scene THREE.empty.
Proof. split; [apply NoDup_nil_2|apply Forall_nil_2]. Qed.

(** The constructor of the world on a neat scene: the scene gains the two
    lights, the hole's group and the ground, then the meshes of the
    objects; the physics world holds the ring, then the bodies of the
    objects. *)
Lemma World_new_bare (sc : THREE.Scene) (d : World.Draws) :
  neat_scene sc ->
  let a := THREE.object3DId sc in
  exists h,
    World.new sc d = Some (World.addDecorations d (World.mk h []))
    /\ raised (THREE.children sc ++ [a; S a; S (S a); S (S (S a))])
              (World.mk h [])
    /\ settled h /\ ring_placed h.
Proof.
  intros Hsc a. unfold World.new, THREE.create. cbv beta iota zeta.
  fold a.
  match goal with
  | |- context [Hole.new ?s CANNON.empty] => set (sc2 := s)
  end.
  assert (Hch2 : THREE.children sc2 = THREE.children sc ++ [a; S a]).
  { unfold sc2. simpl.
    assert (Ha : a ∉ THREE.children sc).
    { intros Hin. apply (proj1 (Forall_forall _ _) (proj2 Hsc)) in Hin.
      fold a in Hin. lia. }
    rewrite (splice_out_absent a) by assumption.
    rewrite splice_out_absent, <- app_assoc; [reflexivity|].
    intros Hin. apply elem_of_app in Hin as [Hin|Hin].
    - apply (proj1 (Forall_forall _ _) (proj2 Hsc)) in Hin.
      fold a in Hin. lia.
    - apply list_elem_of_singleton in Hin. lia. }
  assert (Hid2 : THREE.object3DId sc2 = S (S a)) by reflexivity.
  assert (Hsc2 : neat_scene sc2).
  { unfold neat_scene. rewrite Hch2, Hid2. destruct Hsc as [Hnd Hlt]. split.
    - apply NoDup_app. split; [exact Hnd|]. split.
      + intros x Hx Hx'. apply (proj1 (Forall_forall _ _) Hlt) in Hx.
        fold a in Hx.
        apply elem_of_cons in Hx' as [->|Hx']; [lia|].
        apply list_elem_of_singleton in Hx'. lia.
      + apply NoDup_cons. split; [|apply NoDup_singleton].
        intros Hx. apply list_elem_of_singleton in Hx. lia.
    - apply Forall_app. split.
      + eapply Forall_impl; [exact Hlt|]. simpl. fold a. intros x Hx. lia.
      + repeat (apply Forall_cons; split; [lia|]). apply Forall_nil_2. }
  clearbody sc2.
  destruct (Hole_new_raised sc2 CANNON.empty Hsc2 neat_empty_world)
    as (h & Hnew & Hm & Hch & Hsch & Hbs & Hpw & Horig).
  destruct (Hole_new_founded sc2 CANNON.empty)
    as (h' & Hnew' & Hs & Hp & Ha & _).
  rewrite Hnew in Hnew'. injection Hnew' as <-.
  rewrite Hnew. simpl.
  assert (Hr0 : raised (THREE.children sc ++ [a; S a; S (S a); S (S (S a))])
                       (World.mk h [])).
  { constructor; unfold World.scene, World.physicsWorld, meshes,
      objectBodies; simpl.
    - exact Hsch.
    - exact Hpw.
    - exact Ha.
    - rewrite Hch, Hch2, Hid2, app_nil_r, <- app_assoc. reflexivity.
    - rewrite Hbs, app_nil_r. reflexivity.
    - rewrite Hm, Hid2. apply elem_of_app. right.
      apply elem_of_cons. right. apply elem_of_cons. right.
      apply elem_of_cons. by left.
    - exact Horig.
    - apply Forall_nil_2. }
  exists h. split; [reflexivity|]. auto.
Qed.

Lemma World_new_raised (sc : THREE.Scene) (d : World.Draws) :
  neat_scene sc ->
  let a := THREE.object3DId sc in
  exists w,
    World.new sc d = Some w
    /\ raised (THREE.children sc ++ [a; S a; S (S a); S (S (S a))]) w
    /\ settled (World.hole w) /\ ring_placed (World.hole w).
Proof.
  intros Hsc a.
  destruct (World_new_bare sc d Hsc) as (h & Hnew & Hr0 & Hs & Hp).
  pose proof (addDecorations_raised _ d _ Hr0) as Hr.
  destruct (founded_extends h _
              (extends_addDecorations d (World.mk h []))
              (conj Hs (conj Hp (raised_allocated _ _ Hr0))))
    as (Hs' & Hp' & _).
  eexists. split; [exact Hnew|]. auto.
Qed.

(** ** Sessions *)

Lemma raised_tidy (base : list nat) (w : World.t) :
  raised base w -> tidy base w /\ registry w.
Proof.
  intros [Hsc Hpw _ Hch Hbs Hhole _ _].
  split; [constructor|split]; try assumption; try apply Hsc; try apply Hpw.
  intros b Hb Hb'. destruct Hpw as [Hnd _]. rewrite Hbs in Hnd.
  apply NoDup_app in Hnd as (_ & Hdisj & _). by apply (Hdisj b).
Qed.

Lemma tidy_on_key (base : list nat) (f : Hole.t -> Hole.t) (g : Game.t) :
  (forall h, Hole.scene (f h) = Hole.scene h
             /\ Hole.physicsWorld (f h) = Hole.physicsWorld h
             /\ Hole.mesh (f h) = Hole.mesh h
             /\ Hole.groundBodies (f h) = Hole.groundBodies h) ->
  (tidy base (Game.world g) -> tidy base (Game.world (Game.on_key f g)))
  /\ (registry (Game.world g) -> registry (Game.world (Game.on_key f g))).
Proof.
  intros Hf. destruct (Hf (World.hole (Game.world g))) as (Hs & Hp & Hm & Hg).
  split.
  - intros [Hch Hnd Hhole Hring].
    constructor; unfold World.scene, meshes, objectBodies in *; simpl;
      rewrite ?Hs, ?Hm, ?Hg; assumption.
  - unfold registry, World.physicsWorld, objectBodies. simpl.
    by rewrite Hp, Hg.
Qed.

Lemma handle_orderly
      (step : R -> R -> nat -> CANNON.World -> CANNON.World)
      (base : list nat) (g : Game.t) (e : Game.Event) :
  orderly base g ->
  exists g',
    Game.handle step g e = Some g'
    /\ orderly base g'
    /\ (forall t,
          e = Game.AnimationFrame t ->
          World.objects (Game.world g')
          = survivors step (Game.world g) (Game.deltaTime g t)
          /\ synced (Game.world g'))
    /\ (keeps_bodies step ->
        registry (Game.world g) -> registry (Game.world g')).
Proof.
  intros (Hs & Hp & Ht). destruct e as [t|code|code].
  - cbn [Game.handle]. unfold Game.animate.
    destruct (World_update_exact step base (Game.world g)
                (Game.deltaTime g t) (settled_ring _ Hs) Ht)
      as (w' & Hu & Hobjs & Ht' & Hsy & Hk & HB).
    destruct (World_update_settled step (Game.world g)
                (Game.deltaTime g t) Hs) as (w'' & Hu' & Hs' & Hp' & _).
    rewrite Hu in Hu'. injection Hu' as <-.
    rewrite Hu. eexists. split; [reflexivity|]. cbn [Game.world].
    split; [exact (conj Hs' (conj Hp' Ht'))|]. split.
    + intros t' [= <-]. by split.
    + intros Hstep [Hbs Hnd].
      assert (Hbs' : CANNON.bodies (World.physicsWorld w')
                     = Hole.groundBodies (World.hole w') ++ objectBodies w').
      { apply HB.
        - unfold World.stepped. cbn [Hole.physicsWorld Hole.with_physicsWorld].
          by rewrite Hstep.
        - by rewrite <- Hbs. }
      split; [exact Hbs'|]. rewrite Hbs', (kept_groundBodies _ _ Hk).
      rewrite Hbs in Hnd. eapply sublist_NoDup; [exact Hnd|].
      apply sublist_app; [reflexivity|].
      unfold objectBodies. apply sublist_map. rewrite Hobjs.
      apply sublist_filter.
  - eexists. split; [reflexivity|].
    destruct (tidy_on_key base (Hole.keydown code) g) as [Htk Hrk];
      [by intros h|].
    split; [|split; [intros t' [=]|intros _; exact Hrk]].
    split; [|split; [exact Hp|by apply Htk]].
    eapply settled_kept; [apply kept_with_keys| |exact Hs].
    apply (settled_speed _ Hs).
  - eexists. split; [reflexivity|].
    destruct (tidy_on_key base (Hole.keyup code) g) as [Htk Hrk];
      [by intros h|].
    split; [|split; [intros t' [=]|intros _; exact Hrk]].
    split; [|split; [exact Hp|by apply Htk]].
    eapply settled_kept; [apply kept_with_keys| |exact Hs].
    apply (settled_speed _ Hs).
Qed.

Lemma run_orderly
      (step : R -> R -> nat -> CANNON.World -> CANNON.World)
      (base : list nat) (es : list Game.Event) (g : Game.t) :
  orderly base g ->
  exists g',
    Game.run step g es = Some g'
    /\ orderly base g'
    /\ (keeps_bodies step ->
        registry (Game.world g) -> registry (Game.world g')).
Proof.
  revert g. induction es as [|e es IH]; intros g Ho.
  - exists g. split; [reflexivity|]. split; [exact Ho|]. auto.
  - destruct (handle_orderly step base g e Ho) as (g1 & Hh & Ho1 & _ & Hr1).
    destruct (IH g1 Ho1) as (g' & Hr & Ho' & Hr').
    exists g'. cbn [Game.run]. rewrite Hh. split; [exact Hr|].
    split; [exact Ho'|]. auto.
Qed.

Lemma Game_new_orderly (d : World.Draws) (now : R) :
  exists g0,
    Game.new d now = Some g0
    /\ orderly [0; 1; 2; 3]%nat g0
    /\ registry (Game.world g0)
    /\ raised [0; 1; 2; 3]%nat (Game.world g0).
Proof.
  unfold Game.new.
  destruct (World_new_raised THREE.empty d neat_empty_scene)
    as (w & Hnew & Hr & Hs & Hp).
  rewrite Hnew. eexists. split; [reflexivity|]. cbn [Game.world].
  destruct (raised_tidy _ _ Hr) as [Ht Hreg].
  split; [exact (conj Hs (conj Hp Ht))|]. split; assumption.
Qed.

(** X11.  In every session, a frame keeps in the list of the world exactly
    the objects whose body, where the physics step of the frame leaves it,
    does not fall in the hole where the frame finds it, in their order; the
    others are dropped. *)
Theorem frame_keeps_survivors
        (step : R -> R -> nat -> CANNON.World -> CANNON.World)
        (d : World.Draws) (now : R) :
  exists g0,
    Game.new d now = Some g0
    /\ forall (es : list Game.Event) (t : R),
        exists g g',
          Game.run step g0 es = Some g
          /\ Game.animate step g t = Some g'
          /\ World.objects (Game.world g')
             = survivors step (Game.world g) (Game.deltaTime g t).
Proof.
  destruct (Game_new_orderly d now) as (g0 & Hnew & Ho & _).
  exists g0. split; [exact Hnew|]. intros es t.
  destruct (run_orderly step _ es g0 Ho) as (g & Hr & Hog & _).
  destruct (handle_orderly step _ g (Game.AnimationFrame t) Hog)
    as (g' & Hh & _ & Hf & _).
  exists g, g'. split; [exact Hr|]. split; [exact Hh|].
  by destruct (Hf t eq_refl).
Qed.

(** X12.  In every session, after a frame every object still listed has
    its mesh at the position of its body. *)
Theorem meshes_follow_bodies
        (step : R -> R -> nat -> CANNON.World -> CANNON.World)
        (d : World.Draws) (now : R) :
  exists g0,
    Game.new d now = Some g0
    /\ forall (es : list Game.Event) (t : R),
        exists g',
          Game.run step g0 (es ++ [Game.AnimationFrame t]) = Some g'
          /\ forall m b,
              (m, b) ∈ World.objects (Game.world g') ->
              THREE.position (THREE.objects (World.scene (Game.world g')) m)
              = CANNON.position (World.physicsWorld (Game.world g')) b.
Proof.
  destruct (Game_new_orderly d now) as (g0 & Hnew & Ho & _).
  exists g0. split; [exact Hnew|]. intros es t.
  destruct (run_orderly step _ es g0 Ho) as (g & Hr & Hog & _).
  destruct (handle_orderly step _ g (Game.AnimationFrame t) Hog)
    as (g' & Hh & _ & Hf & _).
  exists g'. split; [|by destruct (Hf t eq_refl)].
  clear -Hr Hh. revert g0 Hr.
  induction es as [|e es IH]; intros g0 Hr.
  - injection Hr as ->. cbn [app Game.run]. rewrite Hh. reflexivity.
  - cbn [app Game.run] in *.
    destruct (Game.handle step g0 e) as [g1|]; [|discriminate].
    by apply IH.
Qed.

(** X13.  In every session, after any events, the scene lists the two
    lights, the hole's group and the ground, then the meshes of the objects
    of the world in their order, and nothing twice; no object has the
    hole's group for its mesh or a body of the ring for its body. *)
Theorem scene_lists_objects
        (step : R -> R -> nat -> CANNON.World -> CANNON.World)
        (d : World.Draws) (now : R) :
  exists g0,
    Game.new d now = Some g0
    /\ forall es : list Game.Event,
        exists g,
          Game.run step g0 es = Some g
          /\ THREE.children (World.scene (Game.world g))
             = [0; 1; 2; 3]%nat ++ meshes (Game.world g)
          /\ NoDup (THREE.children (World.scene (Game.world g)))
          /\ (Hole.mesh (World.hole (Game.world g)) ∉ meshes (Game.world g))
          /\ forall b,
              b ∈ Hole.groundBodies (World.hole (Game.world g)) ->
              b ∉ objectBodies (Game.world g).
Proof.
  destruct (Game_new_orderly d now) as (g0 & Hnew & Ho & _).
  exists g0. split; [exact Hnew|]. intros es.
  destruct (run_orderly step _ es g0 Ho)
    as (g & Hr & (_ & _ & [Hch Hnd Hhole Hring]) & _).
  exists g. split; [exact Hr|]. split; [exact Hch|]. split; [exact Hnd|].
  split; [|exact Hring].
  rewrite Hch in Hnd. apply NoDup_app in Hnd as (_ & Hdisj & _).
  by apply Hdisj.
Qed.

(** X14.  In every session whose physics step neither adds nor removes a
    body, after any events, the physics world holds the four bodies of the
    ring, then the bodies of the objects of the world in their order, and
    nothing twice: the ring is never removed, and a swallowed body never
    stays. *)
Theorem world_holds_ring_and_objects
        (step : R -> R -> nat -> CANNON.World -> CANNON.World)
        (d : World.Draws) (now : R) :
  keeps_bodies step ->
  exists g0,
    Game.new d now = Some g0
    /\ forall es : list Game.Event,
        exists g,
          Game.run step g0 es = Some g
          /\ CANNON.bodies (World.physicsWorld (Game.world g))
             = Hole.groundBodies (World.hole (Game.world g))
               ++ objectBodies (Game.world g)
          /\ NoDup (CANNON.bodies (World.physicsWorld (Game.world g)))
          /\ length (Hole.groundBodies (World.hole (Game.world g))) = 4%nat.
Proof.
  intros Hstep.
  destruct (Game_new_orderly d now) as (g0 & Hnew & Ho & Hreg & _).
  exists g0. split; [exact Hnew|]. intros es.
  destruct (run_orderly step _ es g0 Ho) as (g & Hr & (Hs & _) & Hreg').
  destruct (Hreg' Hstep Hreg) as [Hbs Hnd].
  exists g. split; [exact Hr|]. split; [exact Hbs|]. split; [exact Hnd|].
  apply (settled_ring _ Hs).
Qed.

Lemma world_holds_ring_and_objects_witness :
  exists g0,
    Game.new sample_draws 0 = Some g0
    /\ forall es : list Game.Event,
        exists g,
          Game.run still g0 es = Some g
          /\ CANNON.bodies (World.physicsWorld (Game.world g))
             = Hole.groundBodies (World.hole (Game.world g))
               ++ objectBodies (Game.world g)
          /\ NoDup (CANNON.bodies (World.physicsWorld (Game.world g)))
          /\ length (Hole.groundBodies (World.hole (Game.world g))) = 4%nat.
Proof. apply world_holds_ring_and_objects. by intros ? ? ? ?. Defined.

(** ** Where the decorations go *)

Lemma spawn_positions (base : list nat) (pos : Vector3.t) (w : World.t) :
  raised base w -> meshPositions (spawn pos w) = meshPositions w ++ [pos].
Proof.
  intros [Hsc Hpw _ Hch _ _ _ _].
  destruct (spawn_adds pos w Hsc Hpw) as (Hobjs & _ & _ & _ & _ & Hp' & _).
  assert (He : extends (World.hole w) (World.hole (spawn pos w)))
    by apply extends_spawn.
  unfold meshPositions, meshes. rewrite Hobjs, !fmap_app.
  cbn [fmap list_fmap fst]. rewrite Hp'. f_equal.
  apply Forall_fmap_ext, Forall_forall. intros m Hm.
  unfold World.scene. rewrite (ext_objects _ _ He); [reflexivity|].
  apply (proj1 (Forall_forall _ _) (proj2 Hsc)). rewrite Hch.
  apply elem_of_app. by right.
Qed.

Lemma decorate_positions (base : list nat) (spread clearance : R)
      (draws : list (R * R)) (w : World.t) :
  2 <= clearance -> raised base w ->
  meshPositions (World.decorate spread clearance draws w)
  = meshPositions w
    ++ (World.spawnPosition spread <$> placed spread clearance draws).
Proof.
  intros Hc. unfold World.decorate, placed. revert w.
  induction draws as [|draw draws IH]; intros w Hr.
  - simpl. by rewrite app_nil_r.
  - cbn [fold_left].
    destruct (Rlt_dec (Vector3.length (World.spawnPosition spread draw))
                      clearance) as [Hnear|Hfar].
    + rewrite filter_cons_False by (intros Hn; by apply Hn). by apply IH.
    + rewrite filter_cons_True by exact Hfar.
      assert (Hr' : raised base (spawn (World.spawnPosition spread draw) w)).
      { apply spawn_raised; [exact Hr|reflexivity|lra]. }
      etransitivity; [exact (IH _ Hr')|].
      rewrite (spawn_positions base) by exact Hr.
      by rewrite fmap_cons, <- app_assoc.
Qed.

Lemma addDecorations_positions (base : list nat) (d : World.Draws)
      (w : World.t) :
  raised base w ->
  meshPositions (World.addDecorations d w)
  = meshPositions w
    ++ (World.spawnPosition 15 <$> placed 15 3 (World.trees d))
    ++ (World.spawnPosition 15 <$> placed 15 2 (World.rocks d))
    ++ (World.spawnPosition 18 <$> placed 18 2 (World.flowers d))
    ++ (World.spawnPosition 18 <$> placed 18 2 (World.grass d)).
Proof.
  intros Hr. unfold World.addDecorations. cbv zeta.
  pose proof (decorate_raised base 15 3 (World.trees d) w ltac:(lra) Hr)
    as Hr1.
  pose proof (decorate_raised base 15 2 (World.rocks d) _ ltac:(lra) Hr1)
    as Hr2.
  pose proof (decorate_raised base 18 2 (World.flowers d) _ ltac:(lra) Hr2)
    as Hr3.
  rewrite (decorate_positions base) by (lra || assumption).
  rewrite (decorate_positions base) by (lra || assumption).
  rewrite (decorate_positions base) by (lra || assumption).
  rewrite (decorate_positions base) by (lra || assumption).
  by rewrite <- !app_assoc.
Qed.

(** X15.  The constructor of the world puts the decorations where the
    draws say, in the order of the loops (trees, rocks, flowers, grass) and
    of the draws in a loop: one object for each draw whose position is not
    closer to the origin than the clearance of the loop (3 for trees, 2 for
    the rest), none for the others. *)
Theorem decorations_where_drawn (d : World.Draws) (now : R) :
  exists g0,
    Game.new d now = Some g0
    /\ meshPositions (Game.world g0)
       = (World.spawnPosition 15 <$> placed 15 3 (World.trees d))
         ++ (World.spawnPosition 15 <$> placed 15 2 (World.rocks d))
         ++ (World.spawnPosition 18 <$> placed 18 2 (World.flowers d))
         ++ (World.spawnPosition 18 <$> placed 18 2 (World.grass d)).
Proof.
  unfold Game.new.
  destruct (World_new_bare THREE.empty d neat_empty_scene)
    as (h & Hnew & Hr0 & _).
  rewrite Hnew. eexists. split; [reflexivity|]. cbn [Game.world].
  by rewrite (addDecorations_positions _ d _ Hr0).
Qed.

(** X16.  As its constructor leaves the world, before the first frame,
    the hole is at the origin and every object has its mesh on the ground
    plane, its body 5 above the mesh, and its centre outside the hole:
    further from the centre of the hole than the radius of the hole. *)
Theorem objects_spawn_clear_of_hole (d : World.Draws) (now : R) :
  exists g0,
    Game.new d now = Some g0
    /\ Hole.position (World.hole (Game.world g0)) = Vector3.zero
    /\ forall m b,
        (m, b) ∈ World.objects (Game.world g0) ->
        let p :=
          THREE.position (THREE.objects (World.scene (Game.world g0)) m) in
        Vector3.y p = 0
        /\ CANNON.position (World.physicsWorld (Game.world g0)) b
           = Vector3.mk (Vector3.x p) 5 (Vector3.z p)
        /\ Hole.radius (World.hole (Game.world g0))
           < horizontalDistance (World.hole (Game.world g0)) m.
Proof.
  destruct (Game_new_orderly d now) as (g0 & Hnew & (Hs & _) & _ & Hr).
  exists g0. split; [exact Hnew|].
  destruct Hr as [_ _ _ _ _ _ Horig Hsp]. split; [exact Horig|].
  intros m b Hin p.
  destruct (proj1 (Forall_forall _ _) Hsp _ Hin) as (Hy & Hb & Hfar).
  split; [exact Hy|]. split; [exact Hb|].
  rewrite (settled_radius _ Hs). unfold horizontalDistance. rewrite Horig.
  unfold groundDistance in Hfar. cbn [fst] in Hfar.
  unfold World.scene in Hfar. lra.
Qed.

(** ** The hole in a frame *)

Lemma keys_sync_loop (objs : list (nat * nat)) (h : Hole.t) :
  Hole.keys (fold_left World.syncAndCheck objs h) = Hole.keys h.
Proof.
  revert h. induction objs as [|[m b] objs IH]; intros h; [reflexivity|].
  cbn [fold_left]. rewrite IH. unfold World.syncAndCheck, Hole.checkSwallow.
  repeat match goal with
         | |- context [Rlt_dec ?a ?b] => destruct (Rlt_dec a b)
         end; reflexivity.
Qed.

Lemma readInput_keys (h h' : Hole.t) :
  Hole.keys h' = Hole.keys h -> Hole.readInput h' = Hole.readInput h.
Proof. unfold Hole.readInput, Hole.key. by intros ->. Qed.

(** The loop over the objects leaves the hole where it is; [update] of the
    hole then moves it as [handleInput] says. *)
Lemma World_update_hole
      (step : R -> R -> nat -> CANNON.World -> CANNON.World)
      (base : list nat) (w : World.t) (dt : R) :
  ring_built (World.hole w) -> tidy base w ->
  exists w',
    World.update step w dt = Some w'
    /\ Hole.keys (World.hole w') = Hole.keys (World.hole w)
    /\ Hole.currentSpeed (World.hole w')
       = Hole.integrate (Hole.readInput (World.hole w))
                        (Hole.currentSpeed (World.hole w)) dt
    /\ Hole.position (World.hole w')
       = Vector3.mk
           (Vector3.x (Hole.position (World.hole w))
            + Vector2.x (Hole.currentSpeed (World.hole w')) * dt)
           (Vector3.y (Hole.position (World.hole w)))
           (Vector3.z (Hole.position (World.hole w))
            + Vector2.y (Hole.currentSpeed (World.hole w')) * dt).
Proof.
  intros Hb [Hch Hnd Hhole Hring].
  unfold World.update.
  set (h0 := World.stepped step w dt).
  set (h2 := fold_left World.syncAndCheck (World.objects w) h0).
  rewrite Hch in Hnd. unfold meshes in *.
  assert (Hm0 : Hole.mesh h0 ∉ (World.objects w).*1).
  { apply NoDup_app in Hnd as (_ & Hdisj & _). by apply Hdisj. }
  destruct (sync_loop_exact h0 (World.objects w) h0 base)
    as (_ & Hp2 & _); try reflexivity; try assumption.
  fold h2 in Hp2.
  assert (Hk2 : kept (World.hole w) h2).
  { eapply kept_trans; [|apply kept_sync_loop]. apply kept_with_physicsWorld. }
  assert (Hb2 : ring_built h2) by (eapply ring_built_kept; eassumption).
  assert (Hkeys : Hole.keys h2 = Hole.keys (World.hole w))
    by exact (keys_sync_loop (World.objects w) h0).
  assert (Hv2 : Hole.currentSpeed h2 = Hole.currentSpeed (World.hole w))
    by exact (proj2 (kept_sync_loop (World.objects w) h0)).
  assert (Hpos : Hole.position h2 = Hole.position (World.hole w))
    by exact Hp2.
  clearbody h2.
  destruct (update_places h2 dt Hb2) as (pw & Hu & _).
  destruct (update_is_handleInput _ _ _ Hu) as (Hp' & Hv' & Hk').
  rewrite Hu. eexists. split; [reflexivity|]. cbn [World.hole].
  rewrite Hk', Hp', position_handleInput, Hv', currentSpeed_handleInput.
  by rewrite (readInput_keys _ _ Hkeys), Hv2, Hpos, Hkeys.
Qed.

Lemma run_grounded
      (step : R -> R -> nat -> CANNON.World -> CANNON.World)
      (base : list nat) (es : list Game.Event) (g : Game.t) :
  orderly base g ->
  Vector3.y (Hole.position (World.hole (Game.world g))) = 0 ->
  exists g',
    Game.run step g es = Some g'
    /\ orderly base g'
    /\ Vector3.y (Hole.position (World.hole (Game.world g'))) = 0.
Proof.
  revert g. induction es as [|e es IH]; intros g Ho Hy.
  - exists g. by split.
  - destruct (handle_orderly step base g e Ho) as (g1 & Hh & Ho1 & _).
    assert (Hy1 : Vector3.y (Hole.position (World.hole (Game.world g1))) = 0).
    { destruct e as [t|code|code]; cbn [Game.handle] in Hh.
      - destruct Ho as (Hs & _ & Ht).
        destruct (World_update_hole step base (Game.world g)
                    (Game.deltaTime g t) (settled_ring _ Hs) Ht)
          as (w' & Hu & _ & _ & Hp).
        unfold Game.animate in Hh. rewrite Hu in Hh. injection Hh as <-.
        cbn [Game.world]. rewrite Hp. exact Hy.
      - injection Hh as <-. exact Hy.
      - injection Hh as <-. exact Hy. }
    destruct (IH g1 Ho1 Hy1) as (g' & Hr & Ho' & Hy').
    exists g'. cbn [Game.run]. rewrite Hh. by split.
Qed.

(** X17.  In every session, a frame moves the hole as its own [update]
    says, whatever the objects do: the keys are as they were, the velocity
    is the one [handleInput] computes from the keys and the velocity before
    the frame, and the hole is displaced in the ground plane by that
    velocity times the time step, at height 0 throughout. *)
Theorem frame_moves_hole
        (step : R -> R -> nat -> CANNON.World -> CANNON.World)
        (d : World.Draws) (now : R) :
  exists g0,
    Game.new d now = Some g0
    /\ forall (es : list Game.Event) (t : R),
        exists g g',
          Game.run step g0 es = Some g
          /\ Game.animate step g t = Some g'
          /\ Hole.keys (World.hole (Game.world g'))
             = Hole.keys (World.hole (Game.world g))
          /\ Hole.currentSpeed (World.hole (Game.world g'))
             = Hole.integrate (Hole.readInput (World.hole (Game.world g)))
                 (Hole.currentSpeed (World.hole (Game.world g)))
                 (Game.deltaTime g t)
          /\ Hole.position (World.hole (Game.world g'))
             = Vector3.mk
                 (Vector3.x (Hole.position (World.hole (Game.world g)))
                  + Vector2.x (Hole.currentSpeed (World.hole (Game.world g')))
                    * Game.deltaTime g t)
                 0
                 (Vector3.z (Hole.position (World.hole (Game.world g)))
                  + Vector2.y (Hole.currentSpeed (World.hole (Game.world g')))
                    * Game.deltaTime g t).
Proof.
  destruct (Game_new_orderly d now) as (g0 & Hnew & Ho & _ & Hr0).
  exists g0. split; [exact Hnew|]. intros es t.
  assert (Hy0 : Vector3.y (Hole.position (World.hole (Game.world g0))) = 0).
  { by rewrite (raised_origin _ _ Hr0). }
  destruct (run_grounded step _ es g0 Ho Hy0) as (g & Hr & (Hs & _ & Ht) & Hy).
  destruct (World_update_hole step _ (Game.world g) (Game.deltaTime g t)
              (settled_ring _ Hs) Ht) as (w' & Hu & Hk & Hv & Hp).
  exists g, (Game.mk w' t). split; [exact Hr|]. split.
  { unfold Game.animate. by rewrite Hu. }
  cbn [Game.world]. split; [exact Hk|]. split; [exact Hv|].
  rewrite Hp, Hy. reflexivity.
Qed.

(** ** Objects never come back *)

Lemma run_sublist
      (step : R -> R -> nat -> CANNON.World -> CANNON.World)
      (base : list nat) (es : list Game.Event) (g : Game.t) :
  orderly base g ->
  exists g',
    Game.run step g es = Some g'
    /\ World.objects (Game.world g') `sublist_of` World.objects (Game.world g).
Proof.
  revert g. induction es as [|e es IH]; intros g Ho.
  - exists g. by split.
  - destruct (handle_orderly step base g e Ho) as (g1 & Hh & Ho1 & Hf & _).
    destruct (IH g1 Ho1) as (g' & Hr & Hsub).
    exists g'. cbn [Game.run]. rewrite Hh. split; [exact Hr|].
    etransitivity; [exact Hsub|].
    destruct e as [t|code|code].
    + rewrite (proj1 (Hf t eq_refl)). apply sublist_filter.
    + cbn [Game.handle] in Hh. by injection Hh as <-.
    + cbn [Game.handle] in Hh. by injection Hh as <-.
Qed.

(** X18.  In every session the list of objects only loses entries: after
    any further events it is a sublist of what it was, so no object is
    added once the world is built, none comes back after it was dropped,
    and the order never changes. *)
Theorem objects_never_return
        (step : R -> R -> nat -> CANNON.World -> CANNON.World)
        (d : World.Draws) (now : R) :
  exists g0,
    Game.new d now = Some g0
    /\ forall es es' : list Game.Event,
        exists g g',
          Game.run step g0 es = Some g
          /\ Game.run step g es' = Some g'
          /\ World.objects (Game.world g')
             `sublist_of` World.objects (Game.world g).
Proof.
  destruct (Game_new_orderly d now) as (g0 & Hnew & Ho & _).
  exists g0. split; [exact Hnew|]. intros es es'.
  destruct (run_orderly step _ es g0 Ho) as (g & Hr & Hog & _).
  destruct (run_sublist step _ es' g Hog) as (g' & Hr' & Hsub).
  by exists g, g'.
Qed.

(** ** The ground around the hole *)




